(** * Streaming WAV header scanner, player loop and relay generator

    A shallow embedding of [tts_api_test.py] (the incremental RIFF/WAVE
    chunk scanner, the sample-format resolver and the header accumulation
    loop of the player) and of [tts_proxy.py] (payload construction and the
    body generator of the relay endpoint), with the properties stated about
    them. *)

From Stdlib Require Import ZArith Lia Floats.
From Stdlib Require Import Strings.Byte Strings.String.
From stdpp Require Import base tactics option list strings gmap pretty.

Local Open Scope string_scope.
Local Open Scope list_scope.
Local Open Scope Z_scope.

(* ===================================================================== *)
(** * Part I. The embedding                                              *)
(* ===================================================================== *)

(** ** Python values used by both programs *)

(** [bytes] / [bytearray]. *)
Abbreviation bytes := (list byte).

#[global] Instance byte_eq_decision : EqDecision byte := Byte.byte_eq_dec.

(** [len(buf)]. *)
Definition len {A} (l : list A) : Z := Z.of_nat (length l).

(** [buf[a:b]] for indices [0 <= a]; Python clamps both ends to the buffer,
    and so do [take] and [drop]. *)
Definition slice {A} (buf : list A) (a b : Z) : list A :=
  take (Z.to_nat (b - a)) (drop (Z.to_nat a) buf).

(** [buf[a:]]. *)
Definition slice_from {A} (buf : list A) (a : Z) : list A :=
  drop (Z.to_nat a) buf.

(** A bytes literal such as [b'RIFF']. *)
Definition b (s : string) : bytes := list_byte_of_string s.

(** Exceptions that the modelled code can raise. *)
Inductive exn :=
| StructError              (* struct.error: unpack on a buffer of the wrong length *)
| KeyError (key : string)  (* d[key] on a missing key *)
| ValueError (msg : string)
| RuntimeError (msg : string)
| HTTPError (status_code : Z).  (* requests: raise_for_status on a 4xx/5xx *)

(** The result of running a piece of Python: a value, a raised exception, or
    [Fuel] when the bound given to a [while] loop was used up. *)
Inductive run (A : Type) :=
| Done (a : A)
| Raise (e : exn)
| Fuel.
Arguments Done {A} a.
Arguments Raise {A} e.
Arguments Fuel {A}.

#[global] Instance run_ret : MRet run := @Done.

#[global] Instance run_bind : MBind run := fun A B (k : A -> run B) (m : run A) =>
  match m with
  | Done a => k a
  | Raise e => Raise e
  | Fuel => Fuel
  end.

(** ** [struct.unpack] with little-endian unsigned fields *)

Definition byte_val (x : byte) : Z := Z.of_N (Byte.to_N x).

(** The unsigned little-endian number held by a byte string. *)
Fixpoint le_uint (bs : bytes) : Z :=
  match bs with
  | [] => 0
  | x :: bs' => byte_val x + 256 * le_uint bs'
  end.

(** [struct.unpack('<I', bs)[0]]: the buffer must hold exactly 4 bytes. *)
Definition unpack_I (bs : bytes) : run Z :=
  if decide (length bs = 4%nat) then Done (le_uint bs) else Raise StructError.

(** [struct.unpack('<HHIIHH', bs)]: the buffer must hold exactly 16 bytes. *)
Definition unpack_HHIIHH (bs : bytes) : run (Z * Z * Z * Z * Z * Z) :=
  if decide (length bs = 16%nat) then
    Done (le_uint (slice bs 0 2), le_uint (slice bs 2 4),
          le_uint (slice bs 4 8), le_uint (slice bs 8 12),
          le_uint (slice bs 12 14), le_uint (slice bs 14 16))
  else Raise StructError.

(** ** tts_api_test.py: [scan_chunks_streaming] *)

(** One entry of [found]: the tuple [(cid, i, size)]. *)
Definition chunk_entry : Type := bytes * Z * Z.

(** The dict built for a parsed [fmt ] chunk. *)
Definition mk_fmt (audio_format channels rate byte_rate block_align bits : Z)
  : gmap string Z :=
  <["audio_format" := audio_format]>
  (<["channels" := channels]>
  (<["rate" := rate]>
  (<["bits" := bits]>
  (<["block_align" := block_align]>
  (<["byte_rate" := byte_rate]> ∅))))).

(** What the scanner returns: [(found, fmt, data_off)]. *)
Definition scan_result : Type :=
  list chunk_entry * option (gmap string Z) * option Z.

(** The [while i + 8 <= len(buf)] loop (lines 54-98) followed by the final
    [return] of line 100; a [break] leaves the loop and reaches that
    [return].  [fuel] bounds the number of iterations. *)
Fixpoint scan_loop (fuel : nat) (buf : bytes) (i : Z)
    (fmt : option (gmap string Z)) (data_off : option Z)
    (found : list chunk_entry) : run scan_result :=
  match fuel with
  | O => Fuel
  | S fuel' =>
    if decide (i + 8 <= len buf) then
      let cid := slice buf i (i + 4) in
      if decide (i + 8 > len buf) then Done (found, fmt, data_off)
      else
        size ← unpack_I (slice buf (i + 4) (i + 8));
        let end_ := i + 8 + size in
        if decide (cid = b "fmt ") then
          if decide (end_ > len buf) then Done (found, fmt, data_off)
          else
            fmt' ← (if decide (size >= 16) then
                       '(audio_format, channels, rate, byte_rate, block_align, bits)
                          ← unpack_HHIIHH (slice buf (i + 8) (i + 8 + 16));
                       Done (Some (mk_fmt audio_format channels rate
                                          byte_rate block_align bits))
                     else Done fmt);
            scan_loop fuel' buf end_ fmt' data_off (found ++ [(cid, i, size)])
        else if decide (cid = b "data") then
          match fmt with
          | None => Done (found, fmt, data_off)
          | Some _ => Done (found ++ [(cid, i, size)], fmt, Some (i + 8))
          end
        else
          if decide (end_ > len buf) then Done (found, fmt, data_off)
          else scan_loop fuel' buf end_ fmt data_off (found ++ [(cid, i, size)])
    else Done (found, fmt, data_off)
  end.

(** [scan_chunks_streaming(buf)].  Every iteration that continues moves [i]
    forward by at least 8 bytes inside the buffer, so [length buf]
    iterations are never used up ([scan_loop_enough_fuel] below). *)
Definition scan_chunks_streaming (buf : bytes) : run scan_result :=
  let found : list chunk_entry := [] in
  if bool_decide (len buf < 12) || negb (bool_decide (slice buf 0 4 = b "RIFF"))
     || negb (bool_decide (slice buf 8 12 = b "WAVE"))
  then Done (found, None, None)
  else scan_loop (length buf) buf 12 None None found.

(** ** tts_api_test.py: [dtype_for] *)

(** The message of the [ValueError] of line 110. *)
Definition unsupported_msg (code bits : Z) : string :=
  "지원하지 않는 포맷 code=" +:+ pretty code +:+ ", bits=" +:+ pretty bits.

(** [dtype_for(code, bits)].  The first [if] returns for the four PCM
    widths and otherwise falls through to the float test and the [raise]. *)
Definition dtype_for (code bits : Z) : run string :=
  let pcm :=
    if decide (code = 1) then
      if decide (bits = 8) then Some "int8"
      else if decide (bits = 16) then Some "int16"
      else if decide (bits = 24) then Some "int24"
      else if decide (bits = 32) then Some "int32"
      else None
    else None in
  match pcm with
  | Some d => Done d
  | None =>
    if decide (code = 3 ∧ bits = 32) then Done "float32"
    else Raise (ValueError (unsupported_msg code bits))
  end.

(** ** tts_api_test.py: [play_stream] *)

Definition MAX_HEADER_BYTES : Z := 1024 * 1024.
Definition HEADER_DUMP : string := "./wav_header_dump.bin".

(** The message of the [RuntimeError] of line 181. *)
Definition header_not_found_msg (max_header_bytes : Z) : string :=
  "WAV 헤더를 " +:+ pretty max_header_bytes
  +:+ "바이트 안에 못 찾음. 덤프 저장: " +:+ HEADER_DUMP.

(** [d[key]]. *)
Definition subscript (d : gmap string Z) (key : string) : run Z :=
  match d !! key with
  | Some v => Done v
  | None => Raise (KeyError key)
  end.

(** [d.get(key) or 1]: the stored value when it is present and not zero. *)
Definition get_or_1 (d : gmap string Z) (key : string) : Z :=
  match d !! key with
  | Some v => if decide (v = 0) then 1 else v
  | None => 1
  end.

(** Lines 152-160: the final format [(rate, ch, dtype)] the output stream
    is opened with. *)
Definition final_format (fmt : gmap string Z) : run (Z * Z * string) :=
  code ← subscript fmt "audio_format";
  let code := if decide (code = 0xFFFE) then get_or_1 fmt "resolved_format"
              else code in
  bits ← subscript fmt "bits";
  ch ← subscript fmt "channels";
  rate ← subscript fmt "rate";
  dtype ← dtype_for code bits;
  Done (rate, ch, dtype).

(** What [device_value(OUTPUT_DEVICE)] gives when the variable is set: a
    device index or a device name. *)
Inductive device_id :=
| DeviceIndex (n : Z)
| DeviceName (name : string).

(** The audio sink: an [sd.RawOutputStream] with its configuration, whether
    it was started and stopped, and what was written to it.  The sink is
    taken to accept every call: the errors of the audio device are not part
    of the embedding. *)
Record sink := Sink {
  samplerate : Z;
  channels : Z;
  dtype : string;
  device : option device_id;
  blocksize : Z;
  started : bool;
  stopped : bool;
  written : list bytes
}.

Definition sink_write (s : sink) (data : bytes) : sink :=
  Sink (samplerate s) (channels s) (dtype s) (device s) (blocksize s)
       (started s) (stopped s) (written s ++ [data]).

Definition sink_stop (s : sink) : sink :=
  Sink (samplerate s) (channels s) (dtype s) (device s) (blocksize s)
       (started s) true (written s).

(** The local variables of [play_stream] and the files it has written.
    Console output ([print]) is not part of the state, and writing a file
    is taken to succeed. *)
Record player := Player {
  buf : bytes;
  data_started : bool;
  stream : option sink;
  files : gmap string bytes
}.

Definition player_init : player := Player [] false None ∅.

(** Truth value of [fmt] in [if fmt and ...]: [None] and the empty dict are
    false. *)
Definition fmt_truthy (fmt : option (gmap string Z)) : bool :=
  match fmt with
  | Some d => negb (bool_decide (d = ∅))
  | None => false
  end.

(** The test [fmt and data_off is not None] of line 150, with the two
    values it lets through. *)
Definition located (fmt : option (gmap string Z)) (data_off : option Z)
  : option (gmap string Z * Z) :=
  match fmt, data_off with
  | Some d, Some off => if fmt_truthy fmt then Some (d, off) else None
  | _, _ => None
  end.

(** The body of the [for chunk in r.iter_content(...)] loop (lines
    137-185) for one chunk. *)
Definition feed (max_header_bytes : Z) (dev : option device_id)
    (st : player) (chunk : bytes) : player * run unit :=
  if bool_decide (chunk = []) then (st, Done ())
  else if negb (data_started st) then
    let buf' := buf st ++ chunk in
    let st := Player buf' (data_started st) (stream st) (files st) in
    match scan_chunks_streaming buf' with
    | Done (found, fmt, data_off) =>
      match located fmt data_off with
      | Some (fmt, data_off) =>
        match final_format fmt with
        | Done (rate, ch, dtype) =>
          let s := Sink rate ch dtype dev 0 true false [] in
          let initial_pcm := slice_from buf' data_off in
          let s := if bool_decide (initial_pcm = []) then s
                   else sink_write s initial_pcm in
          (Player buf' true (Some s) (files st), Done ())
        | Raise e => (st, Raise e)
        | Fuel => (st, Fuel)
        end
      | None =>
        if bool_decide (len buf' > max_header_bytes) then
          (Player buf' (data_started st) (stream st)
                  (<[HEADER_DUMP := buf']> (files st)),
           Raise (RuntimeError (header_not_found_msg max_header_bytes)))
        else (st, Done ())
      end
    | Raise e => (st, Raise e)
    | Fuel => (st, Fuel)
    end
  else
    (Player (buf st) (data_started st)
            ((fun s => sink_write s chunk) <$> stream st) (files st), Done ()).

(** The [for] loop: an exception raised by the body ends it. *)
Fixpoint for_chunks (max_header_bytes : Z) (dev : option device_id)
    (chunks : list bytes) (st : player) : player * run unit :=
  match chunks with
  | [] => (st, Done ())
  | chunk :: rest =>
    match feed max_header_bytes dev st chunk with
    | (st', Done _) => for_chunks max_header_bytes dev rest st'
    | (st', r) => (st', r)
    end
  end.

(** The [finally] clause: [if stream: stream.stop()]. *)
Definition finally_stop (st : player) : player :=
  Player (buf st) (data_started st) (sink_stop <$> stream st) (files st).

(** Lines 130-189: the [try] block with its [finally]. *)
Definition play_chunks (max_header_bytes : Z) (dev : option device_id)
    (chunks : list bytes) : player * run unit :=
  let '(st, r) := for_chunks max_header_bytes dev chunks player_init in
  (finally_stop st, r).

(** The streamed HTTP response as [play_stream] reads it: its status and
    the chunks [iter_content] produces, up to the normal end of the body (a
    connection that breaks while the body is read is not part of the
    embedding). *)
Record response := Response {
  resp_status : Z;
  iter_content : list bytes
}.

(** [play_stream()], given the API key, the output device and the response
    that [requests.post] returns. *)
Definition play_stream (API_KEY : string) (dev : option device_id)
    (r : response) : player * run unit :=
  if bool_decide (API_KEY = "") then
    (player_init,
     Raise (RuntimeError
       "환경변수 SUPERTONE_API_KEY가 비어 있음 (SUPERTONE_API_KEY)"))
  else if bool_decide (400 <= resp_status r < 600) then
    (player_init, Raise (HTTPError (resp_status r)))
  else play_chunks MAX_HEADER_BYTES dev (iter_content r).

(** ** tts_proxy.py: [build_payload] *)

Definition float : Type := PrimFloat.float.

(** The request model [TTSRequest]; the [text] field holds the validated
    (stripped, 1 to 300 characters) text. *)
Record TTSRequest := {
  text : string;
  language : option string;
  style : option string;
  model : option string;
  pitch_variance : option float;
  speed : option float
}.

(** The values of the five entries of [DEFAULTS], read from the environment
    when the module is loaded. *)
Record defaults := {
  d_language : string;
  d_style : string;
  d_model : string;
  d_pitch_variance : float;
  d_speed : float
}.

(** The keys of the [DEFAULTS] dict, for [key in DEFAULTS]. *)
Definition DEFAULTS_keys : list string :=
  ["language"; "style"; "model"; "pitch_variance"; "speed"].

Record voice_settings := {
  vs_pitch_variance : float;
  vs_speed : float
}.

(** The dict [build_payload] returns; the [style] key may be absent. *)
Record payload := {
  p_text : string;
  p_language : string;
  p_style : option string;
  p_model : string;
  p_voice_settings : voice_settings
}.

(** [x or y] for an optional string [x]: [None] and the empty string are
    false. *)
Definition str_or (x : option string) (y : string) : string :=
  match x with
  | Some s => if bool_decide (s = "") then y else s
  | None => y
  end.

(** The conditional expression of lines 71-72.  Python reads
    [a if c1 else b if c2 else c if c3 else d] as
    [a if c1 else (b if c2 else (c if c3 else d))]. *)
Definition pitch_variance_expr (keys : list string) (D : defaults)
    (body : TTSRequest) : float :=
  match pitch_variance body with
  | None => d_pitch_variance D
  | Some pv =>
    if bool_decide ("pitch_VARIANCE" ∈ keys) then pv
    else match pitch_variance body with
         | None => d_pitch_variance D
         | Some pv' => pv'
         end
  end.

Definition build_payload (D : defaults) (body : TTSRequest) : payload :=
  {| p_text := text body;
     p_language := str_or (language body) (d_language D);
     p_style := if bool_decide (str_or (style body) (d_style D) = "") then None
                else Some (str_or (style body) (d_style D));
     p_model := str_or (model body) (d_model D);
     p_voice_settings :=
       {| vs_pitch_variance := pitch_variance_expr DEFAULTS_keys D body;
          vs_speed := match speed body with
                      | None => d_speed D
                      | Some v => v
                      end |} |}.

(** ** tts_proxy.py: [tts_stream] and its generator [gen] *)

(** A parsed JSON document. *)
#[local] Unset Elimination Schemes.
Inductive json :=
| JNull
| JBool (v : bool)
| JNumber (literal : string)
| JString (v : string)
| JArray (items : list json)
| JObject (members : list (string * json)).
#[local] Set Elimination Schemes.

(** The [detail] of an [HTTPException]. *)
Inductive detail :=
| DetailJson (j : json)
| DetailText (s : string).

(** What iterating the upstream body can raise: the six classes that the
    [except] clause of lines 103-105 names, or an exception of any other
    class. *)
Inductive stream_exn :=
| ReadError
| StreamClosed
| EndOfStream
| ClosedResourceError
| BrokenResourceError
| CancelledError
| OtherError (cls : string).

(** [e.__class__.__name__]. *)
Definition class_name (e : stream_exn) : string :=
  match e with
  | ReadError => "ReadError"
  | StreamClosed => "StreamClosed"
  | EndOfStream => "EndOfStream"
  | ClosedResourceError => "ClosedResourceError"
  | BrokenResourceError => "BrokenResourceError"
  | CancelledError => "CancelledError"
  | OtherError cls => cls
  end.

(** Whether the [except] clause of lines 103-105 handles the exception. *)
Definition caught (e : stream_exn) : bool :=
  match e with
  | OtherError _ => false
  | _ => true
  end.

(** Exceptions that leave [gen]: the [HTTPException]s it raises, the two
    exceptions that [.json()] raises on a body that is not JSON text, and an
    exception of the upstream stream that nothing in [gen] handles. *)
Inductive gen_exn :=
| HTTPException (status_code : Z) (d : detail)
| JSONDecodeError
| UnicodeDecodeError
| Uncaught (e : stream_exn).

(** What [httpx.Response(200, content=data).json()] evaluates to: the
    parsed document, or one of the two exceptions of [json.loads] on bytes
    (the bytes do not decode, or the text is not a JSON document). *)
Inductive json_result :=
| Parsed (j : json)
| NotJson
| NotUnicode.

(** The upstream response as [gen] observes it: the status line, the header
    lines in the order received, and the body stream, which is the chunks
    [aiter_bytes] produces followed by its normal end or by an exception.
    [content_json] and [content_text] are what the two library calls
    evaluate to on the whole body: [httpx.Response(200, content=data).json()]
    and [data.decode("utf-8", "ignore")]. *)
Record upstream := {
  status_code : Z;
  headers : list (string * string);
  content_json : json_result;
  content_text : string;
  aiter_bytes : list bytes;
  aiter_end : option stream_exn
}.

(** What the generator does that is visible outside it. *)
Inductive event :=
| ARead                  (* await upstream.aread() *)
| Yield (chunk : bytes). (* yield chunk *)

(** How the generator ends. *)
Inductive gen_end :=
| Return
| Raised (e : gen_exn).

(** [sub in s] for strings. *)
Definition str_in (sub s : string) : bool :=
  bool_decide (is_Some (String.index 0 sub s)).

(** [str.lower()] on a header name (header names are ASCII). *)
Definition lower_ascii (c : Ascii.ascii) : Ascii.ascii :=
  let n := Ascii.nat_of_ascii c in
  if ((65 <=? n) && (n <=? 90))%nat then Ascii.ascii_of_nat (n + 32) else c.

Fixpoint lower (s : string) : string :=
  match s with
  | EmptyString => EmptyString
  | String c s' => String (lower_ascii c) (lower s')
  end.

(** [headers.get(name, default)] of [httpx.Headers]: the name is compared
    without regard to case, and the values of several lines of that name
    are joined with a comma. *)
Definition headers_get (h : list (string * string)) (name default : string)
  : string :=
  match filter (fun kv => lower kv.1 = lower name) h with
  | [] => default
  | items => String.concat ", " items.*2
  end.

(** [x or y] for a string [x]. *)
Definition text_or (x y : string) : string :=
  if bool_decide (x = "") then y else x.

(** The [async for] loop of lines 99-102 over the chunks the upstream
    produces: the chunks yielded and the final value of [sent]. *)
Fixpoint forward (chunks : list bytes) (sent : Z) : list event * Z :=
  match chunks with
  | [] => ([], sent)
  | chunk :: rest =>
    if bool_decide (chunk = []) then forward rest sent
    else let '(evs, sent') := forward rest (sent + len chunk) in
         (Yield chunk :: evs, sent')
  end.

(** The generator [gen()] of [tts_stream], run to its end against the
    upstream response.  [await upstream.aread()] (line 88) reads the body
    stream to its end and stands outside the [try]: an exception of the
    stream leaves the generator as it is. *)
Definition gen (up : upstream) : list event * gen_end :=
  let sent := 0 in
  if decide (status_code up ≠ 200) then
    match aiter_end up with
    | Some e => ([ARead], Raised (Uncaught e))
    | None =>
      let ctype := headers_get (headers up) "content-type" "" in
      if str_in "application/json" ctype then
        match content_json up with
        | Parsed j =>
          ([ARead], Raised (HTTPException (status_code up) (DetailJson j)))
        | NotJson => ([ARead], Raised JSONDecodeError)
        | NotUnicode => ([ARead], Raised UnicodeDecodeError)
        end
      else
        ([ARead],
         Raised (HTTPException (status_code up)
                   (DetailText (text_or (content_text up) "Upstream error"))))
    end
  else
    let '(evs, sent) := forward (aiter_bytes up) sent in
    match aiter_end up with
    | None => (evs, Return)
    | Some e =>
      if caught e then
        if decide (sent = 0) then
          (evs, Raised (HTTPException 502
                  (DetailText ("Upstream stream error: " +:+ class_name e))))
        else (evs, Return)
      else (evs, Raised (Uncaught e))
    end.



(** ** Driving the scanner *)

(** A format dict is one that line 72 built. *)
Definition scanned_fmt (fmt : option (gmap string Z)) : Prop :=
  match fmt with
  | None => True
  | Some d => exists audio_format channels rate byte_rate block_align bits,
      d = mk_fmt audio_format channels rate byte_rate block_align bits
  end.

(** One call of the scanner, read as line 150 reads its result: the format
    and the data start when both are there. *)
Definition scan_once (buf : bytes) : run (option (gmap string Z * Z)) :=
  '(found, fmt, data_off) ← scan_chunks_streaming buf;
  Done (located fmt data_off).

(** The scanner called on every successive prefix while the chunks are
    appended to [buf] (lines 140-150), up to the first prefix for which
    both values are there. *)
Fixpoint first_located (chunks : list bytes) (buf : bytes)
  : run (option (gmap string Z * Z)) :=
  match chunks with
  | [] => Done None
  | chunk :: rest =>
    let buf' := buf ++ chunk in
    '(found, fmt, data_off) ← scan_chunks_streaming buf';
    match located fmt data_off with
    | Some r => Done (Some r)
    | None => first_located rest buf'
    end
  end.

(** ** Buffers described by their sub-chunks *)

(** A sub-chunk as it lies in a buffer: the 4-byte tag, the 4-byte size
    field and the payload. *)
Record subchunk := SubChunk {
  tag : bytes;
  size_field : bytes;
  body : bytes
}.

Definition subchunk_bytes (c : subchunk) : bytes :=
  tag c ++ size_field c ++ body c.

Definition chunks_bytes (cs : list subchunk) : bytes :=
  concat (subchunk_bytes <$> cs).

(** The sub-chunk is wholly there: its payload has the declared size. *)
Definition complete (c : subchunk) : Prop :=
  length (tag c) = 4%nat /\ length (size_field c) = 4%nat /\
  le_uint (size_field c) = len (body c).

(** The 12 bytes a RIFF/WAVE container starts with. *)
Definition riff_header (riff_size : bytes) : bytes :=
  b "RIFF" ++ riff_size ++ b "WAVE".

(** The format dict of the 16-byte record a [fmt ] payload starts with. *)
Definition parse_fmt (rec : bytes) : gmap string Z :=
  mk_fmt (le_uint (slice rec 0 2)) (le_uint (slice rec 2 4))
         (le_uint (slice rec 4 8)) (le_uint (slice rec 8 12))
         (le_uint (slice rec 12 14)) (le_uint (slice rec 14 16)).

(** A [fmt ] sub-chunk that declares the 16 bytes of the format record. *)
Definition has_format (c : subchunk) : Prop :=
  tag c = b "fmt " /\ 16 <= len (body c).

(** The format known after complete sub-chunks [cs]: that of the last
    [fmt ] sub-chunk of at least 16 bytes. *)
Fixpoint fmt_after (fmt : option (gmap string Z)) (cs : list subchunk)
  : option (gmap string Z) :=
  match cs with
  | [] => fmt
  | c :: cs' =>
    fmt_after (if decide (has_format c)
               then Some (parse_fmt (slice (body c) 0 16)) else fmt) cs'
  end.

(** The entries of [found] for sub-chunks [cs] that start at offset [i]. *)
Fixpoint entries (i : Z) (cs : list subchunk) : list chunk_entry :=
  match cs with
  | [] => []
  | c :: cs' =>
    (tag c, i, len (body c)) :: entries (i + len (subchunk_bytes c)) cs'
  end.

(** ** Example inputs *)

(** The 16-byte format record: PCM (code 1), 1 channel, 44100 Hz, 16 bits. *)
Definition pcm16_record : bytes :=
  [x01; x00; x01; x00; x44; xac; x00; x00; x88; x58; x01; x00; x02; x00; x10; x00].

Definition pcm16_fmt_chunk : subchunk :=
  SubChunk (b "fmt ") [x10; x00; x00; x00] pcm16_record.

(** A [LIST] sub-chunk with a 4-byte payload. *)
Definition list_chunk : subchunk :=
  SubChunk (b "LIST") [x04; x00; x00; x00] (b "INFO").

(** A [fmt ] sub-chunk of 14 bytes: the record without its last field, as
    the general (non-PCM) format structure has it. *)
Definition short_fmt_chunk : subchunk :=
  SubChunk (b "fmt ") [x0e; x00; x00; x00]
           [x01; x00; x01; x00; x44; xac; x00; x00; x88; x58; x01; x00; x02; x00].

(** A streamed size field, as large as the field allows. *)
Definition streamed_size : bytes := [xff; xff; xff; xff].

(** A stream whose [fmt ] sub-chunk has 14 bytes, up to the first two
    payload bytes. *)
Definition wav_short_fmt : bytes :=
  riff_header streamed_size ++ chunks_bytes [short_fmt_chunk]
  ++ b "data" ++ streamed_size ++ [x01; x02].

(** WAVE_FORMAT_EXTENSIBLE (code 0xFFFE), 2 channels, 48000 Hz, 32 bits,
    with the IEEE-float sub-format identifier. *)
Definition extensible_float_chunk : subchunk :=
  SubChunk (b "fmt ") [x28; x00; x00; x00]
    ([xfe; xff; x02; x00; x80; xbb; x00; x00; x00; xdc; x05; x00; x08; x00; x20; x00]
     ++ [x16; x00; x20; x00; x03; x00; x00; x00]
     ++ [x03; x00; x00; x00; x00; x00; x10; x00;
         x80; x00; x00; xaa; x00; x38; x9b; x71]).

Definition wav_extensible : bytes :=
  riff_header streamed_size ++ chunks_bytes [extensible_float_chunk]
  ++ b "data" ++ streamed_size ++ [x00; x00; x80; x3f; x00; x00; x80; x3f].

(** WAVE_FORMAT_EXTENSIBLE (code 0xFFFE), 2 channels, 48000 Hz, 16 bits,
    with the PCM sub-format identifier. *)
Definition extensible_pcm_chunk : subchunk :=
  SubChunk (b "fmt ") [x28; x00; x00; x00]
    ([xfe; xff; x02; x00; x80; xbb; x00; x00; x00; xee; x02; x00; x04; x00; x10; x00]
     ++ [x16; x00; x10; x00; x03; x00; x00; x00]
     ++ [x01; x00; x00; x00; x00; x00; x10; x00;
         x80; x00; x00; xaa; x00; x38; x9b; x71]).

Definition wav_extensible_pcm : bytes :=
  riff_header streamed_size ++ chunks_bytes [extensible_pcm_chunk]
  ++ b "data" ++ streamed_size ++ [x01; x00; xff; xff].


(** 256 chunks of 4096 zero bytes, and one more. *)
Definition zero_chunk : bytes := replicate 4096 x00.
Definition zero_chunks : list bytes := replicate 256 zero_chunk.

(** The (code, bits) pairs that have a sample encoding. *)
Definition supported : list (Z * Z) :=
  [(1, 8); (1, 16); (1, 24); (1, 32); (3, 32)].

(** The bytes the generator has sent downstream. *)
Fixpoint emitted (evs : list event) : bytes :=
  match evs with
  | [] => []
  | Yield chunk :: evs' => chunk ++ emitted evs'
  | ARead :: evs' => emitted evs'
  end.







(** An upstream whose body breaks with a [ReadError] before the first
    byte, and one whose body breaks after two chunks. *)
Definition broken_at_start : upstream :=
  {| status_code := 200;
     headers := [("content-type", "audio/wav")];
     content_json := NotJson; content_text := "";
     aiter_bytes := [[]];
     aiter_end := Some ReadError |}.

Definition broken_midway : upstream :=
  {| status_code := 200;
     headers := [("content-type", "audio/wav")];
     content_json := NotJson; content_text := "";
     aiter_bytes := [b "RIFF"; []; b "WAVE"];
     aiter_end := Some ReadError |}.



(** ** What a scan result says about the buffer *)

(** The entry [(cid, i, size)] is read off the buffer at offset [i] behind
    the container header, and a sub-chunk other than [data] lies wholly in
    the buffer. *)
Definition entry_ok (buf : bytes) (e : chunk_entry) : Prop :=
  let '(cid, i, size) := e in
  12 <= i /\ i + 8 <= len buf /\
  cid = slice buf i (i + 4) /\ size = le_uint (slice buf (i + 4) (i + 8)) /\
  (cid <> b "data" -> i + 8 + size <= len buf).

(** The entries follow each other without a gap from [start]: each begins
    where the one before it ends, and the last one ends at [stop]. *)
Fixpoint laid_out (start stop : Z) (found : list chunk_entry) : Prop :=
  match found with
  | [] => start = stop
  | (cid, i, size) :: rest =>
    i = start /\ laid_out (start + 8 + size) stop rest
  end.

(** The tag of an entry. *)
Definition entry_tag (e : chunk_entry) : bytes := e.1.1.

(** The [found] list of a scan. *)
Definition found_of (r : run scan_result) : list chunk_entry :=
  match r with
  | Done (found, _, _) => found
  | _ => []
  end.

(** The fields of a format dict fit the widths they were unpacked from:
    16 bits for the code, the channels, the block alignment and the bit
    depth, 32 bits for the two rates. *)
Definition fmt_in_range (d : gmap string Z) : Prop :=
  exists audio_format channels rate byte_rate block_align bits,
    d = mk_fmt audio_format channels rate byte_rate block_align bits /\
    0 <= audio_format < 2 ^ 16 /\ 0 <= channels < 2 ^ 16 /\
    0 <= rate < 2 ^ 32 /\ 0 <= byte_rate < 2 ^ 32 /\
    0 <= block_align < 2 ^ 16 /\ 0 <= bits < 2 ^ 16.

(** ** More example inputs *)

(** A PCM stream in three network chunks: the first ends inside the
    [fmt ] sub-chunk, the second brings the rest of the header and two
    payload bytes, the third two more payload bytes. *)
Definition wav_pcm16 : bytes :=
  riff_header streamed_size ++ chunks_bytes [pcm16_fmt_chunk]
  ++ b "data" ++ streamed_size ++ [x01; x02].

Definition pcm16_chunks : list bytes :=
  [take 30 wav_pcm16; drop 30 wav_pcm16; []; [x03; x04]].

(** ** tts_proxy.py: the validator of [text] *)

(** A [str] as the list of its code points. *)
Definition pystr : Type := list Z.

(** [c.isspace()] for one character: the characters that [str.strip()]
    removes. *)
Definition isspace (c : Z) : bool :=
  bool_decide (0x09 <= c <= 0x0D) || bool_decide (0x1C <= c <= 0x20)
  || bool_decide (c = 0x85) || bool_decide (c = 0xA0)
  || bool_decide (c = 0x1680) || bool_decide (0x2000 <= c <= 0x200A)
  || bool_decide (c = 0x2028) || bool_decide (c = 0x2029)
  || bool_decide (c = 0x202F) || bool_decide (c = 0x205F)
  || bool_decide (c = 0x3000).

(** [s.lstrip()], [s.rstrip()] and [s.strip()]. *)
Fixpoint lstrip (s : pystr) : pystr :=
  match s with
  | [] => []
  | c :: s' => if isspace c then lstrip s' else s
  end.

Fixpoint rstrip (s : pystr) : pystr :=
  match s with
  | [] => []
  | c :: s' =>
    match rstrip s' with
    | [] => if isspace c then [] else [c]
    | t => c :: t
    end
  end.

Definition strip (s : pystr) : pystr := rstrip (lstrip s).

(** [TTSRequest._len_guard(cls, v)]. *)
Definition _len_guard (v : pystr) : run pystr :=
  let s := strip v in
  if bool_decide (s = []) then Raise (ValueError "text is required")
  else if bool_decide (len s > 300) then
    Raise (ValueError "text must be <= 300 characters")
  else Done s.

(** A character that [strip] removes. *)
Definition space (c : Z) : Prop := isspace c = true.

(** The text [" hi there "] (with a tab in front) and its stripped form. *)
Definition padded_text : pystr := [9; 32; 104; 105; 32; 116; 104; 101; 114; 101; 32].
Definition stripped_text : pystr := [104; 105; 32; 116; 104; 101; 114; 101].

(* ===================================================================== *)
(** * Part II. Properties                                                *)
(* ===================================================================== *)

(** Goals about concrete inputs are decided by evaluation. *)
Ltac concrete := vm_compute; first [reflexivity | discriminate | done].

(** ** Slices *)

Lemma len_app {A} (l k : list A) : len (l ++ k) = len l + len k.
Proof. unfold len. rewrite length_app. lia. Qed.

Lemma len_nonneg {A} (l : list A) : 0 <= len l.
Proof. unfold len. lia. Qed.

Lemma slice_length {A} (l : list A) a c :
  0 <= a -> a <= c -> c <= len l -> length (slice l a c) = Z.to_nat (c - a).
Proof.
  unfold slice, len. intros Ha Hac Hc.
  rewrite length_take, length_drop. lia.
Qed.

(** A slice that ends inside the buffer is not changed by appending. *)
Lemma slice_app_l {A} (l ext : list A) a c :
  0 <= a -> c <= len l -> slice (l ++ ext) a c = slice l a c.
Proof.
  unfold slice, len. intros Ha Hc.
  destruct (decide (c <= a)) as [Hle|Hlt].
  - replace (Z.to_nat (c - a)) with 0%nat by lia. reflexivity.
  - rewrite drop_app_le by lia.
    rewrite take_app_le; [reflexivity|]. rewrite length_drop. lia.
Qed.

(** The slice that covers exactly the middle part. *)
Lemma slice_mid {A} (pre x rest : list A) a c :
  a = len pre -> c = a + len x -> slice (pre ++ x ++ rest) a c = x.
Proof.
  unfold slice, len. intros -> ->.
  rewrite Nat2Z.id, drop_app_length.
  replace (Z.to_nat _) with (length x) by lia.
  apply take_app_length.
Qed.

(** ** The scanner always returns *)

Lemma unpack_I_ok bs : length bs = 4%nat -> unpack_I bs = Done (le_uint bs).
Proof. intros H. unfold unpack_I. rewrite decide_True; done. Qed.

Lemma unpack_HHIIHH_ok bs :
  length bs = 16%nat -> exists t, unpack_HHIIHH bs = Done t.
Proof. intros H. unfold unpack_HHIIHH. rewrite decide_True by done. eauto. Qed.

Lemma byte_val_bounds x : 0 <= byte_val x < 256.
Proof.
  unfold byte_val. pose proof (Byte.to_N_bounded x). lia.
Qed.

Lemma le_uint_nonneg bs : 0 <= le_uint bs.
Proof.
  induction bs as [|x bs IH]; simpl; [lia|].
  pose proof (byte_val_bounds x). lia.
Qed.

(** A 4-byte size field is an unsigned 32-bit number. *)
Lemma le_uint_4_bound bs : length bs = 4%nat -> 0 <= le_uint bs < 2 ^ 32.
Proof.
  intros H. destruct bs as [|x0 [|x1 [|x2 [|x3 [|? ?]]]]]; try discriminate.
  simpl.
  pose proof (byte_val_bounds x0). pose proof (byte_val_bounds x1).
  pose proof (byte_val_bounds x2). pose proof (byte_val_bounds x3). lia.
Qed.

(** The loop returns whenever the fuel exceeds the bytes left to scan. *)
Lemma scan_loop_enough_fuel fuel : forall buf i fmt data_off found,
  0 <= i -> (0 < fuel)%nat -> len buf - i < Z.of_nat fuel ->
  exists r, scan_loop fuel buf i fmt data_off found = Done r.
Proof.
  induction fuel as [|fuel IH]; intros buf i fmt data_off found Hi Hpos Hfuel;
    [lia|].
  simpl. destruct (decide (i + 8 <= len buf)) as [Hin|]; [|eauto].
  rewrite decide_False by lia.
  rewrite unpack_I_ok by (rewrite slice_length; lia).
  set (size := le_uint _).
  assert (0 <= size) by apply le_uint_nonneg.
  simpl. destruct (decide (slice buf i (i + 4) = b "fmt ")).
  - destruct (decide (i + 8 + size > len buf)); [eauto|].
    destruct (decide (size >= 16)).
    + destruct (unpack_HHIIHH_ok (slice buf (i + 8) (i + 8 + 16))) as [t ->].
      { rewrite slice_length; lia. }
      destruct t as [[[[[? ?] ?] ?] ?] ?]. simpl. apply IH; lia.
    + simpl. apply IH; lia.
  - destruct (decide (slice buf i (i + 4) = b "data")).
    + destruct fmt; eauto.
    + destruct (decide (i + 8 + size > len buf)); [eauto|]. apply IH; lia.
Qed.

(** The scanner has no error path: on every buffer it returns its triple. *)
Lemma scan_total buf :
  exists found fmt data_off,
    scan_chunks_streaming buf = Done (found, fmt, data_off).
Proof.
  unfold scan_chunks_streaming.
  destruct (bool_decide (len buf < 12)) eqn:Hlen; simpl; [eauto|].
  apply bool_decide_eq_false in Hlen.
  destruct (_ || _); [eauto|].
  destruct (scan_loop_enough_fuel (length buf) buf 12 None None [])
    as [[[found fmt] off] ->]; unfold len in *; try lia; eauto.
Qed.

(** More fuel does not change a result. *)
Lemma scan_loop_fuel_mono n : forall m buf i fmt data_off found r,
  scan_loop n buf i fmt data_off found = Done r -> (n <= m)%nat ->
  scan_loop m buf i fmt data_off found = Done r.
Proof.
  induction n as [|n IH]; intros m buf i fmt data_off found r Hrun Hle;
    [discriminate|].
  destruct m as [|m]; [lia|]. simpl in *.
  destruct (decide (i + 8 <= len buf)); [|done].
  destruct (decide (i + 8 > len buf)); [done|].
  destruct (unpack_I _) as [size| |]; simpl in *; try done.
  repeat case_decide; try done.
  - destruct (unpack_HHIIHH _) as [[[[[[? ?] ?] ?] ?] ?]| |]; simpl in *;
      try done.
    apply IH; [done|lia].
  - apply IH; [done|lia].
  - apply IH; [done|lia].
Qed.

(** ** Appending bytes after a located data start *)

(** Once the loop has returned a data start, the same run over a longer
    buffer takes the same steps. *)
Lemma scan_loop_extend n : forall buf ext i fmt found found' fmt' off,
  0 <= i ->
  scan_loop n buf i fmt None found = Done (found', fmt', Some off) ->
  scan_loop n (buf ++ ext) i fmt None found = Done (found', fmt', Some off).
Proof.
  induction n as [|n IH]; intros buf ext i fmt found found' fmt' off Hi Hrun;
    [discriminate|].
  simpl in *.
  destruct (decide (i + 8 <= len buf)) as [Hin|]; [|done].
  rewrite decide_False in Hrun by lia.
  pose proof (len_nonneg ext) as Hext.
  rewrite decide_True by (rewrite len_app; lia).
  rewrite decide_False by (rewrite len_app; lia).
  rewrite (slice_app_l buf ext i (i + 4)) by lia.
  rewrite (slice_app_l buf ext (i + 4) (i + 8)) by lia.
  rewrite unpack_I_ok in * by (rewrite slice_length; lia).
  set (size := le_uint _) in *.
  assert (0 <= size) by apply le_uint_nonneg.
  simpl in *. destruct (decide (slice buf i (i + 4) = b "fmt ")).
  - destruct (decide (i + 8 + size > len buf)); [done|].
    rewrite decide_False by (rewrite len_app; lia).
    destruct (decide (size >= 16)).
    + rewrite (slice_app_l buf ext) by lia.
      destruct (unpack_HHIIHH _) as [[[[[[? ?] ?] ?] ?] ?]| |]; simpl in *;
        try done.
      apply IH; [lia|done].
    + simpl in *. apply IH; [lia|done].
  - destruct (decide (slice buf i (i + 4) = b "data")); [done|].
    destruct (decide (i + 8 + size > len buf)); [done|].
    rewrite decide_False by (rewrite len_app; lia).
    apply IH; [lia|done].
Qed.

(** The first 12 bytes decide the container test, so a longer buffer passes
    it when the shorter one does. *)
Lemma scan_extend buf ext found fmt off :
  scan_chunks_streaming buf = Done (found, fmt, Some off) ->
  scan_chunks_streaming (buf ++ ext) = Done (found, fmt, Some off).
Proof.
  unfold scan_chunks_streaming.
  destruct (bool_decide (len buf < 12)) eqn:Hlen; simpl; [done|].
  apply bool_decide_eq_false in Hlen.
  pose proof (len_nonneg ext) as Hext.
  rewrite (bool_decide_eq_false_2 (len (buf ++ ext) < 12))
    by (rewrite len_app; lia).
  rewrite (slice_app_l buf ext 0 4), (slice_app_l buf ext 8 12) by lia. simpl.
  destruct (negb _ || negb _); [done|].
  intros Hrun. apply scan_loop_extend with (ext := ext) in Hrun; [|lia].
  eapply scan_loop_fuel_mono; [exact Hrun|].
  rewrite length_app. lia.
Qed.

(** ** What the scanner can return as a format *)

Lemma scan_loop_result n : forall buf i fmt data_off found found' fmt' off,
  scanned_fmt fmt ->
  scan_loop n buf i fmt data_off found = Done (found', fmt', off) ->
  scanned_fmt fmt' /\ (off = data_off \/ fmt' <> None).
Proof.
  induction n as [|n IH];
    intros buf i fmt data_off found found' fmt' off Hfmt Hrun;
    [discriminate|].
  assert (Hbreak : Done (found, fmt, data_off) = Done (found', fmt', off) ->
                   scanned_fmt fmt' /\ (off = data_off \/ fmt' <> None)).
  { intros [= <- <- <-]. auto. }
  simpl in Hrun.
  destruct (decide (i + 8 <= len buf)); [|auto].
  destruct (decide (i + 8 > len buf)); [auto|].
  destruct (unpack_I _) as [size| |]; simpl in Hrun; try done.
  destruct (decide (slice buf i (i + 4) = b "fmt ")).
  - destruct (decide (i + 8 + size > len buf)); [auto|].
    destruct (decide (size >= 16)); simpl in Hrun.
    + destruct (unpack_HHIIHH _) as [[[[[[? ?] ?] ?] ?] ?]| |]; simpl in Hrun;
        try done.
      eapply IH; [|exact Hrun]. simpl. eauto 10.
    + eapply IH; [|exact Hrun]. done.
  - destruct (decide (slice buf i (i + 4) = b "data")).
    + destruct fmt as [d|]; [|auto].
      injection Hrun as <- <- <-. auto.
    + destruct (decide (i + 8 + size > len buf)); [auto|].
      eapply IH; [|exact Hrun]. done.
Qed.

(** The scanner's format is a dict of line 72, and a data start is never
    returned without a format. *)
Lemma scan_result_fmt buf found fmt off :
  scan_chunks_streaming buf = Done (found, fmt, off) ->
  scanned_fmt fmt /\ (off = None \/ fmt <> None).
Proof.
  unfold scan_chunks_streaming. destruct (_ || _).
  - intros [= <- <- <-]. simpl. auto.
  - apply scan_loop_result. exact I.
Qed.

Lemma mk_fmt_lookup af ch rate br ba bits :
  let d := mk_fmt af ch rate br ba bits in
  d !! "audio_format" = Some af /\ d !! "channels" = Some ch /\
  d !! "rate" = Some rate /\ d !! "bits" = Some bits /\
  d !! "resolved_format" = None /\ d <> ∅.
Proof.
  unfold mk_fmt. repeat split; first [by simplify_map_eq | apply insert_non_empty].
Qed.

(** For what the scanner returns, the test of line 150 is whether both
    values are present. *)
Lemma located_scanned buf found fmt off :
  scan_chunks_streaming buf = Done (found, fmt, off) ->
  located fmt off = match fmt, off with
                    | Some d, Some o => Some (d, o)
                    | _, _ => None
                    end.
Proof.
  intros Hscan. apply scan_result_fmt in Hscan as [Hfmt _].
  destruct fmt as [d|], off as [o|]; try done.
  destruct Hfmt as (af & ch & rate & br & ba & bits & ->).
  unfold located, fmt_truthy.
  rewrite bool_decide_eq_false_2; [done|]. apply mk_fmt_lookup.
Qed.

(** ** Incremental scanning *)

Lemma located_Some_off fmt off r :
  located fmt off = Some r -> exists d o, fmt = Some d /\ off = Some o.
Proof. destruct fmt, off; simpl; try done. eauto. Qed.

Lemma first_located_from chunks : forall buf,
  scan_once buf = Done None ->
  first_located chunks buf = scan_once (buf ++ concat chunks).
Proof.
  induction chunks as [|chunk rest IH]; intros buf Hnone; simpl.
  - by rewrite app_nil_r.
  - destruct (scan_total (buf ++ chunk)) as (found & fmt & off & Hscan).
    rewrite Hscan. simpl. destruct (located fmt off) as [r|] eqn:Hloc.
    + destruct (located_Some_off _ _ _ Hloc) as (d & o & -> & ->).
      apply scan_extend with (ext := concat rest) in Hscan.
      unfold scan_once. rewrite app_assoc, Hscan. cbn -[located].
      by rewrite Hloc.
    + rewrite IH, <- app_assoc; [done|].
      unfold scan_once. rewrite Hscan. cbn -[located]. by rewrite Hloc.
Qed.

(** C3. Scanning a byte sequence incrementally, chunk after chunk over the
    growing buffer and stopping at the first prefix that has both a format
    and a data start, gives the same format and the same data-start offset
    as one call of the scanner on the complete sequence (and gives nothing
    exactly when that call gives nothing). *)
Theorem incremental_scan_agrees (chunks : list bytes) :
  first_located chunks [] = scan_once (concat chunks).
Proof. by rewrite first_located_from. Qed.

(** ** The header accumulation loop *)

(** A buffer without both values has no prefix with both. *)
Lemma unlocated_prefix buf ext :
  scan_once (buf ++ ext) = Done None -> scan_once buf = Done None.
Proof.
  intros Hall. destruct (scan_total buf) as (found & fmt & off & Hscan).
  unfold scan_once in *. rewrite Hscan. cbn -[located].
  destruct (located fmt off) as [r|] eqn:Hloc; [|done].
  destruct (located_Some_off _ _ _ Hloc) as (d & o & -> & ->).
  apply scan_extend with (ext := ext) in Hscan.
  rewrite Hscan in Hall. cbn -[located] in Hall. congruence.
Qed.

(** One chunk fed while the header is still missing: the chunk is appended,
    and the loop fails only if the buffer is now above the bound. *)
Lemma feed_unlocated max dev buf0 fs chunk :
  chunk <> [] -> scan_once (buf0 ++ chunk) = Done None ->
  feed max dev (Player buf0 false None fs) chunk =
    if bool_decide (len (buf0 ++ chunk) > max) then
      (Player (buf0 ++ chunk) false None (<[HEADER_DUMP := buf0 ++ chunk]> fs),
       Raise (RuntimeError (header_not_found_msg max)))
    else (Player (buf0 ++ chunk) false None fs, Done ()).
Proof.
  intros Hne Hnone. unfold feed.
  rewrite bool_decide_eq_false_2 by done. cbn -[located scan_chunks_streaming].
  unfold scan_once in Hnone.
  destruct (scan_chunks_streaming (buf0 ++ chunk)) as [[[found fmt] off]| |];
    cbn -[located] in Hnone; try done.
  injection Hnone as ->. done.
Qed.

Lemma for_chunks_accumulate max dev chunks : forall buf0 fs ext,
  scan_once (buf0 ++ concat chunks ++ ext) = Done None ->
  len (buf0 ++ concat chunks) <= max ->
  for_chunks max dev chunks (Player buf0 false None fs) =
    (Player (buf0 ++ concat chunks) false None fs, Done ()).
Proof.
  induction chunks as [|chunk rest IH]; intros buf0 fs ext Hnone Hlen; simpl.
  - by rewrite app_nil_r.
  - simpl in Hnone, Hlen. destruct (decide (chunk = [])) as [->|Hne].
    + unfold feed. simpl. eapply IH; eauto.
    + rewrite feed_unlocated; [|done|].
      * rewrite bool_decide_eq_false_2.
        -- rewrite (IH (buf0 ++ chunk) fs ext), <- app_assoc; [done| |].
           ++ by rewrite <- !app_assoc in *.
           ++ by rewrite <- app_assoc.
        -- pose proof (len_nonneg (concat rest)).
           rewrite !len_app in *. lia.
      * apply unlocated_prefix with (ext := concat rest ++ ext).
        by rewrite <- !app_assoc in *.
Qed.

Lemma for_chunks_app max dev xs ys st :
  for_chunks max dev (xs ++ ys) st =
    match for_chunks max dev xs st with
    | (st', Done _) => for_chunks max dev ys st'
    | (st', r) => (st', r)
    end.
Proof.
  revert st. induction xs as [|x xs IH]; intros st; simpl; [done|].
  destruct (feed max dev st x) as [st' [[]| |]]; auto.
Qed.

(** Two messages of the error of line 181 are equal only for the same
    bound. *)
Lemma length_append (s t : string) :
  String.length (s +:+ t) = (String.length s + String.length t)%nat.
Proof.
  induction s as [|a s IH]; [reflexivity|].
  change (S (String.length (s +:+ t))
          = S (String.length s + String.length t)). by rewrite IH.
Qed.

Lemma append_inj_r (s1 s2 t : string) : s1 +:+ t = s2 +:+ t -> s1 = s2.
Proof.
  revert s2. induction s1 as [|a s1 IH]; intros [|a2 s2] Heq.
  - done.
  - apply (f_equal String.length) in Heq.
    rewrite !length_append in Heq. simpl in Heq. lia.
  - apply (f_equal String.length) in Heq.
    rewrite !length_append in Heq. simpl in Heq. lia.
  - change (String a (s1 +:+ t) = String a2 (s2 +:+ t)) in Heq.
    injection Heq as -> Heq. f_equal. by apply IH.
Qed.

Lemma header_not_found_msg_inj (max1 max2 : Z) :
  header_not_found_msg max1 = header_not_found_msg max2 -> max1 = max2.
Proof.
  unfold header_not_found_msg. intros Heq.
  apply (inj (String.app _)) in Heq.
  apply append_inj_r in Heq. by apply (inj pretty) in Heq.
Qed.

(** C4. When the chunk that takes the buffer above the bound arrives and
    the scanner has not located both the format and the data start in the
    buffer, then: no run over the chunks before it fails (each ends with the
    bytes it was fed in the buffer, nothing written and no stream open);
    the run over the whole sequence fails at that chunk, once, whatever
    chunks would have followed, with the complete buffer written to the
    file ./wav_header_dump.bin and a [RuntimeError] whose message is
    "WAV 헤더를 ", the bound in decimal, and "바이트 안에 못 찾음. 덤프
    저장: ./wav_header_dump.bin"; and that message is the message of no
    other bound. *)
Theorem header_bound_failure (max : Z) (dev : option device_id)
    (pre : list bytes) (chunk : bytes) (post : list bytes) :
  len (concat pre) <= max ->
  len (concat (pre ++ [chunk])) > max ->
  scan_once (concat (pre ++ [chunk])) = Done None ->
  (forall k, for_chunks max dev (take k pre) player_init =
             (Player (concat (take k pre)) false None ∅, Done ())) /\
  play_chunks max dev (pre ++ chunk :: post) =
    (Player (concat (pre ++ [chunk])) false None
            {["./wav_header_dump.bin" := concat (pre ++ [chunk])]},
     Raise (RuntimeError
              ("WAV 헤더를 " +:+ pretty max
               +:+ "바이트 안에 못 찾음. 덤프 저장: ./wav_header_dump.bin"))) /\
  (forall max',
     "WAV 헤더를 " +:+ pretty max'
       +:+ "바이트 안에 못 찾음. 덤프 저장: ./wav_header_dump.bin"
     = "WAV 헤더를 " +:+ pretty max
       +:+ "바이트 안에 못 찾음. 덤프 저장: ./wav_header_dump.bin" ->
     max' = max).
Proof.
  intros Hbelow Habove Hnone.
  rewrite concat_app in *. simpl in *. rewrite app_nil_r in *.
  assert (Hne : chunk <> []).
  { intros ->. rewrite app_nil_r in Habove. lia. }
  split; [|split].
  - intros k. unfold player_init.
    apply (for_chunks_accumulate max dev (take k pre) [] ∅
             (concat (drop k pre) ++ chunk)); simpl.
    + by rewrite app_assoc, <- concat_app, take_drop.
    + rewrite <- (take_drop k pre), concat_app, len_app in Hbelow.
      pose proof (len_nonneg (concat (drop k pre))). lia.
  - unfold play_chunks, player_init. rewrite for_chunks_app.
    rewrite (for_chunks_accumulate max dev pre [] ∅ chunk); [|done..].
    simpl. rewrite feed_unlocated by done.
    rewrite bool_decide_eq_true_2 by done. reflexivity.
  - intros max'. apply (header_not_found_msg_inj max' max).
Qed.

(** ** Walking over complete sub-chunks *)

Lemma slice_inside {A} (pre x rest : list A) a c :
  0 <= a -> c <= len x ->
  slice (pre ++ x ++ rest) (len pre + a) (len pre + c) = slice x a c.
Proof.
  intros Ha Hc. unfold slice, len in *.
  replace (Z.to_nat (Z.of_nat (length pre) + a))
    with (length pre + Z.to_nat a)%nat by lia.
  rewrite drop_app_add.
  replace (Z.of_nat (length pre) + c - (Z.of_nat (length pre) + a))
    with (c - a) by lia.
  destruct (decide (c <= a)).
  - replace (Z.to_nat (c - a)) with 0%nat by lia. done.
  - rewrite drop_app_le by lia.
    rewrite take_app_le; [done|]. rewrite length_drop. lia.
Qed.

Lemma slice_all {A} (x : list A) : slice x 0 (len x) = x.
Proof.
  unfold slice, len. simpl. rewrite Z.sub_0_r, Nat2Z.id. apply firstn_all.
Qed.

Lemma unpack_HHIIHH_parse rec :
  length rec = 16%nat ->
  unpack_HHIIHH rec =
    Done (le_uint (slice rec 0 2), le_uint (slice rec 2 4),
          le_uint (slice rec 4 8), le_uint (slice rec 8 12),
          le_uint (slice rec 12 14), le_uint (slice rec 14 16)).
Proof. intros H. unfold unpack_HHIIHH. by rewrite decide_True. Qed.

(** One iteration of the loop over a sub-chunk that is not [data] and ends
    inside the buffer: it is recorded and skipped, and a [fmt ] sub-chunk of
    at least 16 bytes sets the format. *)
Lemma scan_loop_step n buf i fmt found cid sz :
  0 <= i ->
  slice buf i (i + 4) = cid -> slice buf (i + 4) (i + 8) = sz ->
  length sz = 4%nat -> cid <> b "data" -> i + 8 + le_uint sz <= len buf ->
  scan_loop (S n) buf i fmt None found =
    scan_loop n buf (i + 8 + le_uint sz)
      (if decide (cid = b "fmt " /\ 16 <= le_uint sz)
       then Some (parse_fmt (slice buf (i + 8) (i + 8 + 16))) else fmt)
      None (found ++ [(cid, i, le_uint sz)]).
Proof.
  intros Hi Hcid Hsz Hlen Hnodata Hend.
  pose proof (le_uint_nonneg sz).
  simpl. rewrite decide_True by lia. rewrite decide_False by lia.
  rewrite Hcid, Hsz, unpack_I_ok by done. simpl.
  destruct (decide (cid = b "fmt ")) as [->|Hnofmt].
  - rewrite decide_False by lia.
    destruct (decide (le_uint sz >= 16)).
    + rewrite unpack_HHIIHH_parse by (rewrite slice_length; lia). simpl.
      rewrite decide_True by (split; [done|lia]). done.
    + simpl. rewrite decide_False by (intros [_ ?]; lia). done.
  - rewrite decide_False by done. rewrite decide_False by lia.
    rewrite decide_False by (by intros [? _]). done.
Qed.

Lemma len_subchunk c :
  complete c -> len (subchunk_bytes c) = 8 + len (body c).
Proof.
  intros (Htag & Hsz & _). unfold subchunk_bytes.
  rewrite !len_app. unfold len. lia.
Qed.

Lemma chunks_bytes_cons c cs :
  chunks_bytes (c :: cs) = subchunk_bytes c ++ chunks_bytes cs.
Proof. done. Qed.

(** The first 16 bytes of the payload of a sub-chunk that starts at the end
    of [pre]. *)
Lemma slice_payload pre c rest :
  complete c -> 16 <= len (body c) ->
  slice (pre ++ subchunk_bytes c ++ rest) (len pre + 8) (len pre + 8 + 16) =
  slice (body c) 0 16.
Proof.
  intros (Htag & Hsz & _) H16. unfold subchunk_bytes.
  replace (pre ++ (tag c ++ size_field c ++ body c) ++ rest)
    with ((pre ++ tag c ++ size_field c) ++ body c ++ rest)
    by (by rewrite <- !app_assoc).
  replace (len pre + 8) with (len (pre ++ tag c ++ size_field c) + 0)
    by (rewrite !len_app; unfold len; lia).
  rewrite <- Z.add_assoc. by apply slice_inside.
Qed.

(** The tag and the size field of a sub-chunk that starts at the end of
    [pre]. *)
Lemma slice_tag pre c rest :
  complete c ->
  slice (pre ++ subchunk_bytes c ++ rest) (len pre) (len pre + 4) = tag c.
Proof.
  intros (Htag & _ & _). unfold subchunk_bytes. rewrite <- !app_assoc.
  apply slice_mid; unfold len; lia.
Qed.

Lemma slice_size_field pre c rest :
  complete c ->
  slice (pre ++ subchunk_bytes c ++ rest) (len pre + 4) (len pre + 8) =
  size_field c.
Proof.
  intros (Htag & Hsz & _). unfold subchunk_bytes.
  replace (pre ++ (tag c ++ size_field c ++ body c) ++ rest)
    with ((pre ++ tag c) ++ size_field c ++ (body c ++ rest))
    by (by rewrite <- !app_assoc).
  apply slice_mid; rewrite ?len_app; unfold len; lia.
Qed.

(** The loop walks over complete sub-chunks, none of them [data]. *)
Lemma scan_loop_walk cs : forall n pre tail fmt found,
  Forall complete cs -> Forall (fun c => tag c <> b "data") cs ->
  scan_loop (length cs + n) (pre ++ chunks_bytes cs ++ tail) (len pre)
            fmt None found =
  scan_loop n (pre ++ chunks_bytes cs ++ tail) (len pre + len (chunks_bytes cs))
            (fmt_after fmt cs) None (found ++ entries (len pre) cs).
Proof.
  induction cs as [|c cs IH]; intros n pre tail fmt found Hcomplete Hnodata.
  - simpl. by rewrite Z.add_0_r, app_nil_r.
  - apply Forall_cons in Hcomplete as [Hc Hcomplete].
    apply Forall_cons in Hnodata as [Hnd Hnodata].
    pose proof (len_subchunk c Hc) as Hlenc.
    pose proof Hc as (Htag & Hsz & Hsize).
    pose proof (len_nonneg pre). pose proof (len_nonneg (body c)).
    pose proof (len_nonneg (chunks_bytes cs)). pose proof (len_nonneg tail).
    rewrite chunks_bytes_cons, <- (app_assoc (subchunk_bytes c)).
    change (length (c :: cs) + n)%nat with (S (length cs + n)).
    rewrite (scan_loop_step _ _ _ _ _ (tag c) (size_field c));
      [|lia|by apply slice_tag|by apply slice_size_field|done|done|].
    + rewrite Hsize.
      replace (len pre + 8 + len (body c))
        with (len (pre ++ subchunk_bytes c)) by (rewrite len_app; lia).
      rewrite (app_assoc pre), IH by done.
      rewrite !len_app. simpl. unfold has_format.
      rewrite <- (app_assoc pre), Z.add_assoc, <- (app_assoc found).
      destruct (decide (tag c = b "fmt " /\ 16 <= len (body c))) as [[_ ?]|];
        [|done].
      by rewrite slice_payload.
    + rewrite Hsize, !len_app, Hlenc. lia.
Qed.

(** ** Where the walk ends *)

Lemma scan_loop_fuel_agree n m buf i fmt data_off found r r' :
  scan_loop n buf i fmt data_off found = Done r ->
  scan_loop m buf i fmt data_off found = Done r' -> r = r'.
Proof.
  intros Hn Hm. destruct (decide (n <= m)%nat).
  - apply scan_loop_fuel_mono with (m := m) in Hn; [congruence|done].
  - apply scan_loop_fuel_mono with (m := n) in Hm; [congruence|lia].
Qed.

Lemma len_riff_header riff_size :
  length riff_size = 4%nat -> len (riff_header riff_size) = 12.
Proof. intros H. unfold riff_header. rewrite !len_app. unfold len. simpl. lia. Qed.

(** Behind a RIFF/WAVE header the scanner returns what the loop returns
    from offset 12, with any fuel that lets the loop finish. *)
Lemma scan_of_loop n riff_size rest r :
  length riff_size = 4%nat ->
  scan_loop n (riff_header riff_size ++ rest) 12 None None [] = Done r ->
  scan_chunks_streaming (riff_header riff_size ++ rest) = Done r.
Proof.
  intros Hsz Hloop. pose proof (len_riff_header _ Hsz) as Hlen.
  pose proof (len_nonneg rest).
  unfold scan_chunks_streaming.
  rewrite bool_decide_eq_false_2 by (rewrite len_app; lia).
  rewrite (slice_app_l _ rest 0 4), (slice_app_l _ rest 8 12) by lia.
  assert (slice (riff_header riff_size) 0 4 = b "RIFF") as ->.
  { unfold riff_header. rewrite <- (app_nil_l (b "RIFF" ++ _)).
    by apply slice_mid. }
  assert (slice (riff_header riff_size) 8 12 = b "WAVE") as ->.
  { unfold riff_header.
    rewrite <- (app_nil_r (b "WAVE")), app_assoc.
    apply slice_mid; rewrite ?len_app; unfold len; simpl; lia. }
  rewrite !bool_decide_eq_true_2 by done. cbn [orb negb].
  destruct (scan_loop_enough_fuel (length (riff_header riff_size ++ rest))
              (riff_header riff_size ++ rest) 12 None None [])
    as [r' Hr']; [lia| |unfold len; lia|].
  { rewrite length_app. unfold len in Hlen. lia. }
  rewrite Hr'. f_equal. eapply scan_loop_fuel_agree; eauto.
Qed.

(** At a [data] tag with its size field, with a format known: the data
    start is the offset behind the 8-byte header. *)
Lemma scan_loop_data n pre data_size rest d found :
  length data_size = 4%nat ->
  scan_loop (S n) (pre ++ b "data" ++ data_size ++ rest) (len pre)
            (Some d) None found =
  Done (found ++ [(b "data", len pre, le_uint data_size)], Some d,
        Some (len pre + 8)).
Proof.
  intros Hsz. pose proof (len_nonneg pre). pose proof (len_nonneg rest).
  assert (Hlen : len pre + 8 <= len (pre ++ b "data" ++ data_size ++ rest)).
  { rewrite !len_app. unfold len in *. simpl. lia. }
  assert (Hcid : slice (pre ++ b "data" ++ data_size ++ rest) (len pre)
                       (len pre + 4) = b "data") by (by apply slice_mid).
  assert (Hfield : slice (pre ++ b "data" ++ data_size ++ rest) (len pre + 4)
                         (len pre + 8) = data_size).
  { rewrite (app_assoc pre).
    apply slice_mid; rewrite ?len_app; unfold len; simpl; lia. }
  set (buf := pre ++ b "data" ++ data_size ++ rest) in *. clearbody buf.
  simpl. rewrite decide_True by done. rewrite decide_False by lia.
  by rewrite Hcid, Hfield, unpack_I_ok by done.
Qed.

(** At a [data] tag without a format: the loop is left. *)
Lemma scan_loop_data_first n pre rest found :
  scan_loop (S n) (pre ++ b "data" ++ rest) (len pre) None None found =
  Done (found, None, None).
Proof.
  pose proof (len_nonneg pre).
  assert (Hcid : slice (pre ++ b "data" ++ rest) (len pre) (len pre + 4)
                 = b "data") by (by apply slice_mid).
  set (buf := pre ++ b "data" ++ rest) in *. clearbody buf.
  simpl. destruct (decide (len pre + 8 <= len buf)) as [Hlen|]; [|done].
  rewrite decide_False by lia.
  by rewrite Hcid, unpack_I_ok by (rewrite slice_length; lia).
Qed.


Lemma fmt_after_Some cs : forall d, exists d', fmt_after (Some d) cs = Some d'.
Proof.
  induction cs as [|c cs IH]; intros d; simpl; [eauto|].
  destruct (decide (has_format c)); apply IH.
Qed.

Lemma fmt_after_Exists cs : forall fmt,
  Exists has_format cs -> exists d, fmt_after fmt cs = Some d.
Proof.
  induction cs as [|c cs IH]; intros fmt Hex; [by apply Exists_nil in Hex|].
  simpl. destruct (decide (has_format c)); [apply fmt_after_Some|].
  apply Exists_cons in Hex as [|]; [done|]. by apply IH.
Qed.

Lemma fmt_after_none cs :
  Forall (fun c => ~ has_format c) cs -> fmt_after None cs = None.
Proof.
  induction 1 as [|c cs Hc _ IH]; simpl; [done|].
  by rewrite decide_False.
Qed.

(** The walk from offset 12, with one more iteration left for what follows
    the sub-chunks. *)
Lemma scan_walk_from_header riff_size cs tail r :
  length riff_size = 4%nat ->
  Forall complete cs -> Forall (fun c => tag c <> b "data") cs ->
  scan_loop 1 (riff_header riff_size ++ chunks_bytes cs ++ tail)
            (12 + len (chunks_bytes cs)) (fmt_after None cs) None
            (entries 12 cs) = Done r ->
  scan_chunks_streaming (riff_header riff_size ++ chunks_bytes cs ++ tail)
    = Done r.
Proof.
  intros Hsz Hcomplete Hnodata Hlast.
  apply (scan_of_loop (length cs + 1)); [done|].
  rewrite <- (len_riff_header riff_size Hsz) in *.
  by rewrite scan_loop_walk.
Qed.

(** ** The data start *)

(** C1 (amended). In a buffer that starts with a RIFF/WAVE header followed
    by complete sub-chunks, none tagged [data] and one of them a [fmt ]
    sub-chunk of at least 16 bytes, and then a [data] tag with its 4-byte
    size field, the scanner returns the offset of the [data] tag plus 8 as
    the data start, with the [data] entry last in [found] and the format of
    the last such [fmt ] sub-chunk, whatever size the field declares and
    whatever bytes follow it. *)
Theorem data_start_after_format (riff_size : bytes) (cs : list subchunk)
    (data_size rest : bytes) :
  length riff_size = 4%nat ->
  Forall complete cs -> Forall (fun c => tag c <> b "data") cs ->
  Exists has_format cs ->
  length data_size = 4%nat ->
  exists fmt, fmt_after None cs = Some fmt /\
    scan_chunks_streaming
      (riff_header riff_size ++ chunks_bytes cs
       ++ b "data" ++ data_size ++ rest) =
    Done (entries 12 cs
            ++ [(b "data", 12 + len (chunks_bytes cs), le_uint data_size)],
          Some fmt, Some (12 + len (chunks_bytes cs) + 8)).
Proof.
  intros Hriff Hcomplete Hnodata Hfmt Hsz.
  destruct (fmt_after_Exists cs None Hfmt) as [fmt Hafter].
  exists fmt. split; [done|].
  apply scan_walk_from_header; try done.
  rewrite Hafter, <- (len_riff_header riff_size Hriff).
  rewrite app_assoc, <- len_app. by apply scan_loop_data.
Qed.

(** C2. In a buffer that starts with a RIFF/WAVE header followed by
    complete sub-chunks, none tagged [data] and none a [fmt ] sub-chunk of
    at least 16 bytes, and then a [data] tag, the scanner returns neither a
    data start nor a format: it stops at the tag and records nothing for
    it. *)
Theorem data_before_format_waits (riff_size : bytes) (cs : list subchunk)
    (rest : bytes) :
  length riff_size = 4%nat ->
  Forall complete cs -> Forall (fun c => tag c <> b "data") cs ->
  Forall (fun c => ~ has_format c) cs ->
  scan_chunks_streaming
    (riff_header riff_size ++ chunks_bytes cs ++ b "data" ++ rest) =
  Done (entries 12 cs, None, None).
Proof.
  intros Hriff Hcomplete Hnodata Hnofmt.
  apply scan_walk_from_header; try done.
  rewrite (fmt_after_none cs Hnofmt), <- (len_riff_header riff_size Hriff).
  rewrite app_assoc, <- len_app. apply scan_loop_data_first.
Qed.


(** ** Concrete runs of the scanner *)

Lemma data_start_after_format_witness :
  exists fmt, fmt_after None [list_chunk; pcm16_fmt_chunk] = Some fmt /\
    scan_chunks_streaming
      (riff_header streamed_size ++ chunks_bytes [list_chunk; pcm16_fmt_chunk]
       ++ b "data" ++ streamed_size ++ [x01; x02]) =
    Done (entries 12 [list_chunk; pcm16_fmt_chunk]
            ++ [(b "data", 12 + len (chunks_bytes [list_chunk; pcm16_fmt_chunk]),
                 le_uint streamed_size)],
          Some fmt, Some (12 + len (chunks_bytes [list_chunk; pcm16_fmt_chunk]) + 8)).
Proof.
  apply (data_start_after_format streamed_size [list_chunk; pcm16_fmt_chunk]
           streamed_size [x01; x02]).
  - reflexivity.
  - repeat apply Forall_cons_2; try apply Forall_nil_2;
      (split; [|split]); reflexivity.
  - repeat apply Forall_cons_2; try apply Forall_nil_2; discriminate.
  - apply Exists_cons_tl, Exists_cons_hd. split; [reflexivity|concrete].
  - reflexivity.
Defined.

(** A complete 14-byte [fmt ] sub-chunk followed by a [data] header gives no
    data start. *)
Lemma short_fmt_counterexample :
  complete short_fmt_chunk /\ tag short_fmt_chunk = b "fmt " /\
  scan_chunks_streaming wav_short_fmt = Done ([(b "fmt ", 12, 14)], None, None).
Proof. repeat split; concrete. Qed.

Lemma data_before_format_waits_witness :
  scan_chunks_streaming
    (riff_header streamed_size ++ chunks_bytes [list_chunk; short_fmt_chunk]
     ++ b "data" ++ streamed_size ++ [x01]) =
  Done (entries 12 [list_chunk; short_fmt_chunk], None, None).
Proof.
  apply (data_before_format_waits streamed_size [list_chunk; short_fmt_chunk]
           (streamed_size ++ [x01])).
  - reflexivity.
  - repeat apply Forall_cons_2; try apply Forall_nil_2;
      (split; [|split]); reflexivity.
  - repeat apply Forall_cons_2; try apply Forall_nil_2; discriminate.
  - repeat apply Forall_cons_2; try apply Forall_nil_2;
      intros [Htag Hlen]; [discriminate Htag|].
    vm_compute in Hlen. apply Hlen. reflexivity.
Defined.



Lemma header_bound_failure_witness :
  play_chunks MAX_HEADER_BYTES None (zero_chunks ++ zero_chunk :: [zero_chunk]) =
    (Player (concat (zero_chunks ++ [zero_chunk])) false None
            {["./wav_header_dump.bin" := concat (zero_chunks ++ [zero_chunk])]},
     Raise (RuntimeError
       "WAV 헤더를 1048576바이트 안에 못 찾음. 덤프 저장: ./wav_header_dump.bin")).
Proof.
  apply (header_bound_failure MAX_HEADER_BYTES None zero_chunks zero_chunk
           [zero_chunk]).
  - vm_compute. discriminate.
  - vm_compute. reflexivity.
  - vm_compute. reflexivity.
Defined.

(** ** The sample encoding *)

(** C6. [dtype_for] maps (1, 8), (1, 16), (1, 24), (1, 32) and (3, 32) to
    int8, int16, int24, int32 and float32, and raises a [ValueError] whose
    message gives the code and the bit depth for every other pair, (1, 64)
    and (7, 16) among them. *)
Theorem dtype_for_mapping :
  dtype_for 1 8 = Done "int8" /\ dtype_for 1 16 = Done "int16" /\
  dtype_for 1 24 = Done "int24" /\ dtype_for 1 32 = Done "int32" /\
  dtype_for 3 32 = Done "float32" /\
  (forall code bits, (code, bits) ∉ supported ->
     dtype_for code bits = Raise (ValueError (unsupported_msg code bits))) /\
  dtype_for 1 64 = Raise (ValueError "지원하지 않는 포맷 code=1, bits=64") /\
  dtype_for 7 16 = Raise (ValueError "지원하지 않는 포맷 code=7, bits=16").
Proof.
  repeat split; try reflexivity.
  intros code bits Hout. unfold dtype_for, supported in *.
  repeat (rewrite not_elem_of_cons in Hout; destruct Hout as [? Hout]).
  repeat case_decide; destruct_and?; subst; congruence.
Qed.

Lemma dtype_for_mapping_witness :
  dtype_for 1 64 = Raise (ValueError (unsupported_msg 1 64)).
Proof.
  destruct dtype_for_mapping as (_ & _ & _ & _ & _ & Hother & _).
  apply Hother. unfold supported.
  repeat (apply not_elem_of_cons; split; [discriminate|]).
  apply not_elem_of_nil.
Defined.

(** ** The extensible format code *)

(** C7 (amended). When the format code is 0xFFFE and no resolved
    sub-format is available (the format has no "resolved_format" entry, or a
    zero one), lines 152-160 substitute the PCM code 1 before they resolve
    the sample encoding: the outcome is that of [dtype_for 1 bits] with the
    rate and the channels of the format, so that 8, 16, 24 and 32 bits give
    int8, int16, int24 and int32, and any other bit depth is the
    unsupported-format failure for code 1. *)
Theorem extensible_falls_back_to_pcm (fmt : gmap string Z) (bits ch rate : Z) :
  fmt !! "audio_format" = Some 0xFFFE ->
  fmt !! "resolved_format" = None \/ fmt !! "resolved_format" = Some 0 ->
  fmt !! "bits" = Some bits ->
  fmt !! "channels" = Some ch ->
  fmt !! "rate" = Some rate ->
  final_format fmt = (dtype ← dtype_for 1 bits; Done (rate, ch, dtype)) /\
  (bits = 8 -> final_format fmt = Done (rate, ch, "int8")) /\
  (bits = 16 -> final_format fmt = Done (rate, ch, "int16")) /\
  (bits = 24 -> final_format fmt = Done (rate, ch, "int24")) /\
  (bits = 32 -> final_format fmt = Done (rate, ch, "int32")) /\
  (bits ∉ [8; 16; 24; 32] ->
   final_format fmt = Raise (ValueError (unsupported_msg 1 bits))).
Proof.
  intros Hcode Hres Hbits Hch Hrate.
  assert (Hfinal : final_format fmt
                   = (dtype ← dtype_for 1 bits; Done (rate, ch, dtype))).
  { unfold final_format, subscript, get_or_1.
    rewrite Hcode, Hbits, Hch, Hrate. by destruct Hres as [-> | ->]. }
  rewrite Hfinal. split; [done|].
  repeat split; try (by intros ->).
  intros Hout. unfold dtype_for.
  repeat (rewrite not_elem_of_cons in Hout; destruct Hout as [? Hout]).
  repeat case_decide; destruct_and?; simplify_eq; reflexivity.
Qed.

Lemma extensible_falls_back_to_pcm_witness :
  final_format (mk_fmt 0xFFFE 2 48000 192000 4 16) = Done (48000, 2, "int16").
Proof.
  apply (extensible_falls_back_to_pcm (mk_fmt 0xFFFE 2 48000 192000 4 16)
           16 2 48000); try reflexivity.
  left. reflexivity.
Defined.

(** An extensible stream of 16-bit samples, for which the scanner holds no
    resolved sub-format, is not refused: the player opens the output for
    int16 samples and writes the payload to it. *)
Lemma extensible_counterexample :
  scan_once wav_extensible_pcm
    = Done (Some (mk_fmt 0xFFFE 2 48000 192000 4 16, 68)) /\
  mk_fmt 0xFFFE 2 48000 192000 4 16 !! "resolved_format" = None /\
  play_chunks MAX_HEADER_BYTES None [wav_extensible_pcm] =
    (Player wav_extensible_pcm true
       (Some (Sink 48000 2 "int16" None 0 true true
                [[x01; x00; xff; xff]])) ∅,
     Done ()).
Proof. repeat split; vm_compute; reflexivity. Qed.

(** ** The payload *)

(** C10. In the payload that [build_payload] returns, [pitch_variance] is
    the request's value when it has one and the default otherwise, and so is
    [speed]; the nested conditional of lines 71-72 is this fallback whatever
    keys the membership test finds in [DEFAULTS]. *)
Theorem voice_settings_fallback (D : defaults) (body : TTSRequest) :
  vs_pitch_variance (p_voice_settings (build_payload D body)) =
    default (d_pitch_variance D) (pitch_variance body) /\
  vs_speed (p_voice_settings (build_payload D body)) =
    default (d_speed D) (speed body) /\
  forall keys, pitch_variance_expr keys D body =
               default (d_pitch_variance D) (pitch_variance body).
Proof.
  assert (Hexpr : forall keys, pitch_variance_expr keys D body =
                    default (d_pitch_variance D) (pitch_variance body)).
  { intros keys. unfold pitch_variance_expr.
    destruct (pitch_variance body); [|done]. by case_bool_decide. }
  split; [apply Hexpr|split; [|apply Hexpr]].
  simpl. by destruct (speed body).
Qed.

(** ** The relay generator *)

(** The loop yields the chunks that are not empty, in order, and counts
    their bytes. *)
Lemma forward_spec chunks : forall sent evs sent',
  forward chunks sent = (evs, sent') ->
  sent' = sent + len (emitted evs) /\ emitted evs = concat chunks /\
  (emitted evs = [] -> evs = []).
Proof.
  induction chunks as [|chunk rest IH]; intros sent evs sent' Hrun; simpl in *.
  - injection Hrun as <- <-. unfold len. simpl. split; [lia|done].
  - case_bool_decide as Hempty.
    + subst chunk. by apply IH.
    + destruct (forward rest (sent + len chunk)) as [evs0 s0] eqn:Hrest.
      injection Hrun as <- <-.
      destruct (IH _ _ _ Hrest) as (-> & Hbytes & _).
      simpl. rewrite len_app, Hbytes. repeat split; [lia|].
      intros Hnil. by apply app_eq_nil in Hnil as [? _].
Qed.







(* ===================================================================== *)
(** * Part III. Further properties of the scanner                        *)
(* ===================================================================== *)

(** ** The four ways one iteration goes *)

Lemma scan_loop_end n buf i fmt found :
  ~ i + 8 <= len buf ->
  scan_loop (S n) buf i fmt None found = Done (found, fmt, None).
Proof. intros H. simpl. by rewrite decide_False. Qed.

Lemma scan_loop_at_data n buf i fmt found :
  0 <= i -> i + 8 <= len buf -> slice buf i (i + 4) = b "data" ->
  scan_loop (S n) buf i fmt None found =
    match fmt with
    | None => Done (found, None, None)
    | Some d =>
      Done (found ++ [(b "data", i, le_uint (slice buf (i + 4) (i + 8)))],
            Some d, Some (i + 8))
    end.
Proof.
  intros Hi Hlen Hcid. simpl.
  rewrite decide_True by done. rewrite decide_False by lia.
  rewrite Hcid, unpack_I_ok by (rewrite slice_length; lia).
  by destruct fmt.
Qed.

Lemma scan_loop_break n buf i fmt found :
  0 <= i -> i + 8 <= len buf -> slice buf i (i + 4) <> b "data" ->
  i + 8 + le_uint (slice buf (i + 4) (i + 8)) > len buf ->
  scan_loop (S n) buf i fmt None found = Done (found, fmt, None).
Proof.
  intros Hi Hlen Hcid Hend. simpl.
  rewrite decide_True by done. rewrite decide_False by lia.
  rewrite unpack_I_ok by (rewrite slice_length; lia). simpl.
  destruct (decide (slice buf i (i + 4) = b "fmt ")).
  - by rewrite decide_True.
  - rewrite decide_False by done. by rewrite decide_True.
Qed.

(** ** An invariant rule for the loop *)

Section LoopInvariant.
Variable buf : bytes.
Variable Inv : Z -> option (gmap string Z) -> list chunk_entry -> Prop.
Variable Post : scan_result -> Prop.

Hypothesis Inv_offset : forall i fmt found, Inv i fmt found -> 0 <= i.

(** Leaving the loop without a data start. *)
Hypothesis Inv_break : forall i fmt found,
  Inv i fmt found -> Post (found, fmt, None).

(** Recording a sub-chunk that is not [data] and going on behind it. *)
Hypothesis Inv_step : forall i fmt found,
  Inv i fmt found -> i + 8 <= len buf ->
  slice buf i (i + 4) <> b "data" ->
  i + 8 + le_uint (slice buf (i + 4) (i + 8)) <= len buf ->
  Inv (i + 8 + le_uint (slice buf (i + 4) (i + 8)))
      (if decide (slice buf i (i + 4) = b "fmt "
                  /\ 16 <= le_uint (slice buf (i + 4) (i + 8)))
       then Some (parse_fmt (slice buf (i + 8) (i + 8 + 16))) else fmt)
      (found ++ [(slice buf i (i + 4), i,
                  le_uint (slice buf (i + 4) (i + 8)))]).

(** Returning at a [data] tag when a format is known. *)
Hypothesis Inv_data : forall i d found,
  Inv i (Some d) found -> i + 8 <= len buf ->
  slice buf i (i + 4) = b "data" ->
  Post (found ++ [(b "data", i, le_uint (slice buf (i + 4) (i + 8)))],
        Some d, Some (i + 8)).

Lemma scan_loop_inv n : forall i fmt found r,
  Inv i fmt found ->
  scan_loop n buf i fmt None found = Done r -> Post r.
Proof.
  induction n as [|n IH]; intros i fmt found r Hinv Hrun; [discriminate|].
  pose proof (Inv_offset _ _ _ Hinv) as Hi.
  destruct (decide (i + 8 <= len buf)) as [Hlen|Hlen].
  - destruct (decide (slice buf i (i + 4) = b "data")) as [Hcid|Hcid].
    + rewrite scan_loop_at_data in Hrun by done.
      destruct fmt as [d|]; injection Hrun as <-; eauto.
    + destruct (decide (i + 8 + le_uint (slice buf (i + 4) (i + 8))
                        <= len buf)) as [Hend|Hend].
      * rewrite (scan_loop_step n buf i fmt found (slice buf i (i + 4))
                   (slice buf (i + 4) (i + 8))) in Hrun; try done.
        -- eapply IH; [|exact Hrun]. by apply Inv_step.
        -- rewrite slice_length; lia.
      * rewrite scan_loop_break in Hrun by (done || lia).
        injection Hrun as <-. eauto.
  - rewrite scan_loop_end in Hrun by done. injection Hrun as <-. eauto.
Qed.
End LoopInvariant.

(** The scanner either finds no container header and returns nothing, or
    runs the loop from offset 12 on a buffer that starts with one. *)
Lemma scan_cases buf r :
  scan_chunks_streaming buf = Done r ->
  r = ([], None, None) \/
  (12 <= len buf /\ slice buf 0 4 = b "RIFF" /\ slice buf 8 12 = b "WAVE" /\
   scan_loop (length buf) buf 12 None None [] = Done r).
Proof.
  unfold scan_chunks_streaming.
  case_bool_decide as Hlen; simpl; [intros [= <-]; by left|].
  case_bool_decide as Hriff; simpl; [|intros [= <-]; by left].
  case_bool_decide as Hwave; simpl; [|intros [= <-]; by left].
  intros Hrun. right. repeat split; try done. lia.
Qed.

Lemma scan_with_header buf :
  12 <= len buf -> slice buf 0 4 = b "RIFF" -> slice buf 8 12 = b "WAVE" ->
  scan_chunks_streaming buf = scan_loop (length buf) buf 12 None None [].
Proof.
  intros Hlen Hriff Hwave. unfold scan_chunks_streaming.
  rewrite bool_decide_eq_false_2 by lia.
  by rewrite !bool_decide_eq_true_2 by done.
Qed.

(** ** Buffers without the container signature *)

(** X1. A buffer of at least 12 bytes whose first 12 bytes are not a
    RIFF/WAVE header gives no entries, no format and no data start, and
    neither does any buffer that continues it. *)
Theorem no_signature_scans_nothing (buf ext : bytes) :
  12 <= len buf ->
  slice buf 0 4 <> b "RIFF" \/ slice buf 8 12 <> b "WAVE" ->
  scan_chunks_streaming (buf ++ ext) = Done ([], None, None).
Proof.
  intros Hlen Hsig. unfold scan_chunks_streaming.
  rewrite (slice_app_l buf ext 0 4), (slice_app_l buf ext 8 12) by lia.
  destruct (bool_decide (len (buf ++ ext) < 12)); [done|].
  destruct Hsig as [Hriff|Hwave].
  - by rewrite (bool_decide_eq_false_2 _ Hriff).
  - rewrite (bool_decide_eq_false_2 _ Hwave). simpl. by rewrite orb_true_r.
Qed.

Lemma no_signature_scans_nothing_witness :
  scan_chunks_streaming (b "RIFX....WAVE" ++ subchunk_bytes pcm16_fmt_chunk) =
  Done ([], None, None).
Proof.
  apply (no_signature_scans_nothing (b "RIFX....WAVE")
           (subchunk_bytes pcm16_fmt_chunk)).
  - vm_compute. discriminate.
  - left. vm_compute. discriminate.
Defined.

(** ** The recorded entries *)

Lemma laid_out_snoc found : forall start stop cid size,
  laid_out start stop found ->
  laid_out start (stop + 8 + size) (found ++ [(cid, stop, size)]).
Proof.
  induction found as [|[[c j] sz] rest IH]; intros start stop cid size Hlaid;
    simpl in *.
  - by subst.
  - destruct Hlaid as [-> Hrest]. split; [done|]. by apply IH.
Qed.

(** X2. Every entry of [found] is read off the buffer at its offset (tag
    and size field as they stand there, at or behind offset 12, the 8-byte
    header inside the buffer), an entry other than [data] lies wholly inside
    the buffer, and the entries follow each other without a gap from
    offset 12. *)
Theorem found_layout (buf : bytes) (found : list chunk_entry)
    (fmt : option (gmap string Z)) (off : option Z) :
  scan_chunks_streaming buf = Done (found, fmt, off) ->
  Forall (entry_ok buf) found /\ exists stop, laid_out 12 stop found.
Proof.
  intros Hscan.
  apply scan_cases in Hscan as [[= -> -> ->]|(_ & _ & _ & Hloop)].
  { split; [constructor|]. by exists 12. }
  revert Hloop.
  apply (scan_loop_inv buf
    (fun i _ found => 12 <= i /\ Forall (entry_ok buf) found
                      /\ laid_out 12 i found)
    (fun r => Forall (entry_ok buf) r.1.1 /\ exists stop, laid_out 12 stop r.1.1)).
  - intros i _ _ (Hi & _). lia.
  - intros i f fd (_ & Hok & Hlaid). simpl. eauto.
  - intros i f fd (Hi & Hok & Hlaid) Hlen Hcid Hend.
    pose proof (le_uint_nonneg (slice buf (i + 4) (i + 8))).
    repeat split; [lia| |by apply laid_out_snoc].
    apply Forall_app. split; [done|]. apply Forall_singleton.
    repeat split; done.
  - intros i d fd (Hi & Hok & Hlaid) Hlen Hcid. simpl. split.
    + apply Forall_app. split; [done|]. apply Forall_singleton.
      repeat split; done.
    + eexists. by apply laid_out_snoc.
  - repeat split; [lia|constructor].
Qed.

Lemma found_layout_witness :
  Forall (entry_ok wav_extensible)
         [(b "fmt ", 12, 40); (b "data", 60, 4294967295)] /\
  exists stop,
    laid_out 12 stop [(b "fmt ", 12, 40); (b "data", 60, 4294967295)].
Proof.
  apply (found_layout wav_extensible _
           (Some (mk_fmt 0xFFFE 2 48000 384000 8 32)) (Some 68)).
  reflexivity.
Defined.

(** X3. A data start is returned only together with a format; it is the
    offset 8 bytes behind a [data] tag that stands in the buffer at or
    behind offset 12, with its 8-byte header inside the buffer, and the
    [data] entry is the last entry and the only one with that tag.  Without
    a data start, no entry has the [data] tag. *)
Theorem data_start_behind_data_tag (buf : bytes) (found : list chunk_entry)
    (fmt : option (gmap string Z)) (off : option Z) :
  scan_chunks_streaming buf = Done (found, fmt, off) ->
  match off with
  | Some o =>
    exists d before size,
      fmt = Some d /\ found = before ++ [(b "data", o - 8, size)] /\
      Forall (fun e => entry_tag e <> b "data") before /\
      slice buf (o - 8) (o - 4) = b "data" /\ 20 <= o <= len buf
  | None => Forall (fun e => entry_tag e <> b "data") found
  end.
Proof.
  intros Hscan.
  apply scan_cases in Hscan as [[= -> -> ->]|(_ & _ & _ & Hloop)];
    [constructor|].
  revert Hloop.
  apply (scan_loop_inv buf
    (fun i _ found => 12 <= i /\ Forall (fun e => entry_tag e <> b "data") found)
    (fun r =>
       match r.2 with
       | Some o =>
         exists d before size,
           r.1.2 = Some d /\ r.1.1 = before ++ [(b "data", o - 8, size)] /\
           Forall (fun e => entry_tag e <> b "data") before /\
           slice buf (o - 8) (o - 4) = b "data" /\ 20 <= o <= len buf
       | None => Forall (fun e => entry_tag e <> b "data") r.1.1
       end)).
  - intros i _ _ (Hi & _). lia.
  - intros i f fd (_ & Hno). done.
  - intros i f fd (Hi & Hno) Hlen Hcid Hend.
    pose proof (le_uint_nonneg (slice buf (i + 4) (i + 8))).
    split; [lia|]. apply Forall_app. split; [done|].
    by apply Forall_singleton.
  - intros i d fd (Hi & Hno) Hlen Hcid. simpl.
    exists d, fd, (le_uint (slice buf (i + 4) (i + 8))).
    replace (i + 8 - 8) with i by lia. replace (i + 8 - 4) with (i + 4) by lia.
    repeat split; try done; lia.
  - split; [lia|constructor].
Qed.

Lemma data_start_behind_data_tag_witness :
  exists d before size,
    Some (mk_fmt 0xFFFE 2 48000 384000 8 32) = Some d /\
    [(b "fmt ", 12, 40); (b "data", 60, 4294967295)]
      = before ++ [(b "data", 68 - 8, size)] /\
    Forall (fun e => entry_tag e <> b "data") before /\
    slice wav_extensible (68 - 8) (68 - 4) = b "data" /\
    20 <= 68 <= len wav_extensible.
Proof.
  apply (data_start_behind_data_tag wav_extensible
           [(b "fmt ", 12, 40); (b "data", 60, 4294967295)]
           (Some (mk_fmt 0xFFFE 2 48000 384000 8 32)) (Some 68)).
  reflexivity.
Defined.

(** ** The format fields *)

Lemma le_uint_bound bs : 0 <= le_uint bs < 256 ^ len bs.
Proof.
  induction bs as [|x bs IH]; [done|].
  change (le_uint (x :: bs)) with (byte_val x + 256 * le_uint bs).
  replace (len (x :: bs)) with (Z.succ (len bs)) by (unfold len; simpl; lia).
  rewrite Z.pow_succ_r by apply len_nonneg.
  pose proof (byte_val_bounds x). lia.
Qed.

Lemma le_uint_slice_bound (rec : bytes) a c :
  0 <= a <= c -> 0 <= le_uint (slice rec a c) < 256 ^ (c - a).
Proof.
  intros Hac. pose proof (le_uint_bound (slice rec a c)) as [Hlo Hhi].
  split; [done|]. eapply Z.lt_le_trans; [exact Hhi|].
  apply Z.pow_le_mono_r; [lia|].
  unfold slice, len. rewrite length_take. lia.
Qed.

Lemma parse_fmt_in_range rec : fmt_in_range (parse_fmt rec).
Proof.
  unfold fmt_in_range, parse_fmt. do 6 eexists. split; [reflexivity|].
  repeat split;
    first [ apply le_uint_nonneg
          | apply (le_uint_slice_bound rec 0 2); lia
          | apply (le_uint_slice_bound rec 2 4); lia
          | apply (le_uint_slice_bound rec 4 8); lia
          | apply (le_uint_slice_bound rec 8 12); lia
          | apply (le_uint_slice_bound rec 12 14); lia
          | apply (le_uint_slice_bound rec 14 16); lia ].
Qed.

(** X4. The fields of a format that the scanner returns are within the
    widths of the record they were read from: code, channel count, block
    alignment and bit depth are below 2^16, the sample rate and the byte
    rate below 2^32, and none is negative. *)
Theorem format_fields_in_range (buf : bytes) (found : list chunk_entry)
    (d : gmap string Z) (off : option Z) :
  scan_chunks_streaming buf = Done (found, Some d, off) -> fmt_in_range d.
Proof.
  intros Hscan.
  apply scan_cases in Hscan as [[=]|(_ & _ & _ & Hloop)].
  revert Hloop.
  apply (scan_loop_inv buf
    (fun i fmt _ => 12 <= i /\ from_option fmt_in_range True fmt)
    (fun r => from_option fmt_in_range True r.1.2)).
  - intros i _ _ (Hi & _). lia.
  - intros i f fd (_ & Hfmt). done.
  - intros i f fd (Hi & Hfmt) Hlen Hcid Hend.
    pose proof (le_uint_nonneg (slice buf (i + 4) (i + 8))).
    split; [lia|]. case_decide; [apply parse_fmt_in_range|done].
  - intros i d' fd (Hi & Hfmt) Hlen Hcid. done.
  - done.
Qed.

Lemma format_fields_in_range_witness :
  fmt_in_range (mk_fmt 0xFFFE 2 48000 384000 8 32).
Proof.
  apply (format_fields_in_range wav_extensible
           [(b "fmt ", 12, 40); (b "data", 60, 4294967295)]
           (mk_fmt 0xFFFE 2 48000 384000 8 32) (Some 68)).
  reflexivity.
Defined.

(** ** Scanning a longer buffer *)

(** The entries only grow during a run of the loop. *)
Lemma scan_loop_found_grows n buf i fmt found r :
  0 <= i -> scan_loop n buf i fmt None found = Done r ->
  found `prefix_of` r.1.1.
Proof.
  intros Hi.
  apply (scan_loop_inv buf (fun i _ fd => 0 <= i /\ found `prefix_of` fd)
           (fun r => found `prefix_of` r.1.1)).
  - by intros ? ? ? [? _].
  - by intros ? ? ? [_ ?].
  - intros j f fd (Hj & Hpre) Hlen Hcid Hend.
    pose proof (le_uint_nonneg (slice buf (j + 4) (j + 8))).
    split; [lia|]. by apply prefix_app_r.
  - intros j d fd (Hj & Hpre) Hlen Hcid. by apply prefix_app_r.
  - done.
Qed.

Lemma scan_loop_found_prefix n : forall m buf ext i fmt found r1 r2,
  0 <= i ->
  scan_loop n buf i fmt None found = Done r1 ->
  scan_loop m (buf ++ ext) i fmt None found = Done r2 ->
  r1.1.1 `prefix_of` r2.1.1.
Proof.
  induction n as [|n IH]; intros m buf ext i fmt found r1 r2 Hi Hrun1 Hrun2;
    [discriminate|].
  destruct m as [|m]; [discriminate|].
  pose proof (len_nonneg ext) as Hext.
  destruct (decide (i + 8 <= len buf)) as [Hlen|Hlen].
  - assert (Hlen' : i + 8 <= len (buf ++ ext)) by (rewrite len_app; lia).
    pose proof (slice_app_l buf ext i (i + 4) Hi ltac:(lia)) as Hcid.
    pose proof (slice_app_l buf ext (i + 4) (i + 8) ltac:(lia) ltac:(lia))
      as Hsz.
    pose proof (le_uint_nonneg (slice buf (i + 4) (i + 8))) as Hsize.
    destruct (decide (slice buf i (i + 4) = b "data")) as [Hdata|Hdata].
    + rewrite scan_loop_at_data in Hrun1, Hrun2 by congruence.
      rewrite Hsz in Hrun2. rewrite Hrun1 in Hrun2. by injection Hrun2 as <-.
    + destruct (decide (i + 8 + le_uint (slice buf (i + 4) (i + 8))
                        <= len buf)) as [Hend|Hend].
      * rewrite (scan_loop_step n buf i fmt found (slice buf i (i + 4))
                   (slice buf (i + 4) (i + 8))) in Hrun1;
          [|done..|rewrite slice_length; lia|done|done].
        rewrite (scan_loop_step m (buf ++ ext) i fmt found
                   (slice buf i (i + 4)) (slice buf (i + 4) (i + 8)))
          in Hrun2;
          [|done..|rewrite slice_length; lia|done|rewrite len_app; lia].
        assert (Hfmt : (if decide (slice buf i (i + 4) = b "fmt "
                           /\ 16 <= le_uint (slice buf (i + 4) (i + 8)))
                        then Some (parse_fmt
                               (slice (buf ++ ext) (i + 8) (i + 8 + 16)))
                        else fmt) =
                       (if decide (slice buf i (i + 4) = b "fmt "
                           /\ 16 <= le_uint (slice buf (i + 4) (i + 8)))
                        then Some (parse_fmt (slice buf (i + 8) (i + 8 + 16)))
                        else fmt)).
        { case_decide as H16; [|done]. by rewrite slice_app_l by lia. }
        rewrite Hfmt in Hrun2. eapply IH; [|exact Hrun1|exact Hrun2]. lia.
      * rewrite scan_loop_break in Hrun1 by (done || lia).
        injection Hrun1 as <-. simpl.
        by apply (scan_loop_found_grows _ _ _ _ _ _ Hi Hrun2).
  - rewrite scan_loop_end in Hrun1 by done. injection Hrun1 as <-. simpl.
    by apply (scan_loop_found_grows _ _ _ _ _ _ Hi Hrun2).
Qed.

(** X5. Scanning a buffer again after more bytes have arrived never takes
    back or changes an entry: the entries found in a buffer are the first
    entries found in every buffer that continues it. *)
Theorem found_grows_with_buffer (buf ext : bytes) :
  found_of (scan_chunks_streaming buf)
    `prefix_of` found_of (scan_chunks_streaming (buf ++ ext)).
Proof.
  destruct (scan_total buf) as (f1 & fm1 & o1 & Hscan1).
  destruct (scan_total (buf ++ ext)) as (f2 & fm2 & o2 & Hscan2).
  rewrite Hscan1, Hscan2. simpl.
  apply scan_cases in Hscan1 as [[= -> -> ->]|(Hlen & Hriff & Hwave & Hloop1)];
    [apply prefix_nil|].
  pose proof (len_nonneg ext).
  rewrite scan_with_header in Hscan2;
    [|rewrite len_app; lia|by rewrite slice_app_l by lia..].
  assert (0 <= 12) as H12 by lia.
  exact (scan_loop_found_prefix _ _ _ _ _ _ _ (f1, fm1, o1) (f2, fm2, o2)
           H12 Hloop1 Hscan2).
Qed.

(** ** The container size field *)

Lemma slice_same_tail (buf1 buf2 : bytes) (k : nat) a c :
  drop k buf1 = drop k buf2 -> Z.of_nat k <= a ->
  slice buf1 a c = slice buf2 a c.
Proof.
  intros Htail Hka. unfold slice.
  replace (Z.to_nat a) with (k + (Z.to_nat a - k))%nat by lia.
  by rewrite <- !drop_drop, Htail.
Qed.

Lemma unpack_I_nonneg bs size : unpack_I bs = Done size -> 0 <= size.
Proof.
  unfold unpack_I. case_decide; [|done]. intros [= <-]. apply le_uint_nonneg.
Qed.

(** The loop reads the buffer only from its offset on. *)
Lemma scan_loop_same_tail n : forall (buf1 buf2 : bytes) (k : nat) i fmt found,
  drop k buf1 = drop k buf2 -> length buf1 = length buf2 ->
  Z.of_nat k <= i ->
  scan_loop n buf1 i fmt None found = scan_loop n buf2 i fmt None found.
Proof.
  induction n as [|n IH]; intros buf1 buf2 k i fmt found Htail Hlength Hki;
    [done|].
  assert (Hlen : len buf1 = len buf2) by (unfold len; lia).
  simpl. rewrite Hlen.
  rewrite (slice_same_tail buf1 buf2 k i (i + 4)) by (done || lia).
  rewrite (slice_same_tail buf1 buf2 k (i + 4) (i + 8)) by (done || lia).
  rewrite (slice_same_tail buf1 buf2 k (i + 8) (i + 8 + 16)) by (done || lia).
  destruct (decide (i + 8 <= len buf2)); [|done].
  destruct (decide (i + 8 > len buf2)); [done|].
  destruct (unpack_I _) as [size| |] eqn:Hsize; simpl; try done.
  apply unpack_I_nonneg in Hsize.
  repeat case_decide; try done.
  - destruct (unpack_HHIIHH _) as [[[[[[? ?] ?] ?] ?] ?]| |]; simpl; try done.
    apply (IH _ _ k); (done || lia).
  - apply (IH _ _ k); (done || lia).
  - apply (IH _ _ k); (done || lia).
Qed.

(** X6. The 4-byte size field of the RIFF header (bytes 4 to 7) has no
    effect on the scan: two buffers that differ only there give the same
    entries, format and data start. *)
Theorem riff_size_ignored (riff_size1 riff_size2 rest : bytes) :
  length riff_size1 = 4%nat -> length riff_size2 = 4%nat ->
  scan_chunks_streaming (b "RIFF" ++ riff_size1 ++ rest) =
  scan_chunks_streaming (b "RIFF" ++ riff_size2 ++ rest).
Proof.
  intros H1 H2.
  assert (Htail : drop 8 (b "RIFF" ++ riff_size1 ++ rest) =
                  drop 8 (b "RIFF" ++ riff_size2 ++ rest)).
  { rewrite !app_assoc.
    rewrite !drop_app_length' by (rewrite length_app; simpl; lia). done. }
  assert (Hlength : length (b "RIFF" ++ riff_size1 ++ rest) =
                    length (b "RIFF" ++ riff_size2 ++ rest)).
  { rewrite !length_app. lia. }
  assert (Hriff : forall s : bytes,
            slice (b "RIFF" ++ s ++ rest) 0 4 = b "RIFF").
  { intros s. rewrite <- (app_nil_l (b "RIFF" ++ _)). by apply slice_mid. }
  unfold scan_chunks_streaming.
  rewrite !Hriff.
  rewrite (slice_same_tail _ _ 8 8 12 Htail) by lia.
  replace (len (b "RIFF" ++ riff_size1 ++ rest))
    with (len (b "RIFF" ++ riff_size2 ++ rest)) by (unfold len; lia).
  destruct (_ || _); [done|].
  rewrite Hlength. apply (scan_loop_same_tail _ _ _ 8); (done || lia).
Qed.

Lemma riff_size_ignored_witness :
  scan_chunks_streaming
    (b "RIFF" ++ [x00; x00; x00; x00] ++ b "WAVE" ++ subchunk_bytes list_chunk) =
  scan_chunks_streaming
    (b "RIFF" ++ streamed_size ++ b "WAVE" ++ subchunk_bytes list_chunk).
Proof.
  apply (riff_size_ignored [x00; x00; x00; x00] streamed_size
           (b "WAVE" ++ subchunk_bytes list_chunk)); reflexivity.
Defined.

(* ===================================================================== *)
(** * Part IV. Further properties of the player                          *)
(* ===================================================================== *)

(** A data start lies inside the buffer. *)
Lemma scan_data_off_bound buf found fmt o :
  scan_chunks_streaming buf = Done (found, fmt, Some o) -> 0 <= o <= len buf.
Proof.
  intros Hscan.
  apply scan_cases in Hscan as [[=]|(_ & _ & _ & Hloop)].
  revert Hloop.
  apply (scan_loop_inv buf (fun i _ _ => 0 <= i)
           (fun r => from_option (fun o => 0 <= o <= len buf) True r.2));
    simpl; try done; try lia.
  intros i f fd Hi Hlen Hcid Hend.
  pose proof (le_uint_nonneg (slice buf (i + 4) (i + 8))). lia.
Qed.

(** ** The format the stream is opened with *)

Lemma dtype_for_cases code bits :
  (exists d, dtype_for code bits = Done d) \/
  (((code, bits) ∉ supported) /\
   dtype_for code bits = Raise (ValueError (unsupported_msg code bits))).
Proof.
  unfold dtype_for, supported.
  repeat case_decide; eauto; right; (split; [|done]);
    repeat (apply not_elem_of_cons; split; [intros [= -> ->]; tauto|]);
    apply not_elem_of_nil.
Qed.

(** On a dict of the scanner, lines 152-160 end in a format or in the
    [ValueError] of [dtype_for]; no key is missing. *)
Lemma final_format_cases d :
  scanned_fmt (Some d) ->
  (exists rate ch dtype, final_format d = Done (rate, ch, dtype)) \/
  (exists code bits, ((code, bits) ∉ supported) /\
     final_format d = Raise (ValueError (unsupported_msg code bits))).
Proof.
  intros (af & ch & rate & br & ba & bits & ->).
  destruct (mk_fmt_lookup af ch rate br ba bits)
    as (Haf & Hch & Hrate & Hbits & Hres & _).
  unfold final_format, subscript, get_or_1.
  rewrite Haf, Hbits, Hch, Hrate, Hres. simpl.
  set (code := if decide (af = 65534) then 1 else af).
  destruct (dtype_for_cases code bits) as [[dt ->]|[Hout ->]]; simpl; eauto 10.
Qed.

(** ** One chunk *)

Lemma feed_located max dev buf0 fs chunk fmt off :
  chunk <> [] -> scan_once (buf0 ++ chunk) = Done (Some (fmt, off)) ->
  feed max dev (Player buf0 false None fs) chunk =
    match final_format fmt with
    | Done (rate, ch, dtype) =>
      (Player (buf0 ++ chunk) true
         (Some (if bool_decide (slice_from (buf0 ++ chunk) off = [])
                then Sink rate ch dtype dev 0 true false []
                else Sink rate ch dtype dev 0 true false
                          [slice_from (buf0 ++ chunk) off])) fs, Done ())
    | Raise e => (Player (buf0 ++ chunk) false None fs, Raise e)
    | Fuel => (Player (buf0 ++ chunk) false None fs, Fuel)
    end.
Proof.
  intros Hne Hloc. unfold feed.
  rewrite bool_decide_eq_false_2 by done.
  cbn -[located scan_chunks_streaming final_format].
  unfold scan_once in Hloc.
  destruct (scan_chunks_streaming (buf0 ++ chunk)) as [[[found f] o]| |];
    cbn -[located] in Hloc; try done.
  injection Hloc as ->.
  by destruct (final_format fmt) as [[[rate ch] dt]| |].
Qed.

Lemma feed_playing max dev bf s fs chunk :
  feed max dev (Player bf true (Some s) fs) chunk =
    (Player bf true
       (Some (if bool_decide (chunk = []) then s else sink_write s chunk)) fs,
     Done ()).
Proof. unfold feed. by case_bool_decide. Qed.

Lemma concat_nonempty (cs : list bytes) :
  concat (filter (fun c => c <> []) cs) = concat cs.
Proof.
  induction cs as [|c cs IH]; [done|].
  rewrite filter_cons. case_decide as Hc; simpl; [by rewrite IH|].
  by rewrite Hc, IH.
Qed.

(** Once the stream is open, every chunk that is not empty is written to
    it, in order, and nothing else changes. *)
Lemma for_chunks_playing max dev cs : forall bf s fs,
  exists s',
    for_chunks max dev cs (Player bf true (Some s) fs) =
      (Player bf true (Some s') fs, Done ()) /\
    written s' = written s ++ filter (fun c => c <> []) cs /\
    samplerate s' = samplerate s /\ channels s' = channels s /\
    dtype s' = dtype s /\ device s' = device s /\
    blocksize s' = blocksize s /\ started s' = started s /\
    stopped s' = stopped s.
Proof.
  induction cs as [|c cs IH]; intros bf s fs; simpl.
  - exists s. by rewrite app_nil_r.
  - rewrite feed_playing. rewrite filter_cons.
    case_bool_decide as Hc.
    + rewrite decide_False by (by intros []).
      apply IH.
    + rewrite decide_True by done.
      destruct (IH bf (sink_write s c) fs) as (s' & -> & Hw & Hrest).
      exists s'. split; [done|]. split; [|done].
      rewrite Hw. simpl. by rewrite <- app_assoc.
Qed.

(** ** A run that ends normally *)

Lemma located_inv fmt off d o :
  located fmt off = Some (d, o) -> fmt = Some d /\ off = Some o.
Proof.
  destruct fmt as [d'|], off as [o'|]; simpl; try done.
  case_bool_decide; simpl; [done|]. by intros [= -> ->].
Qed.

Lemma scan_once_located buf found fmt off :
  scan_chunks_streaming buf = Done (found, fmt, off) ->
  scan_once buf = Done (located fmt off).
Proof. intros H. unfold scan_once. by rewrite H. Qed.

Lemma for_chunks_delivers max dev cs : forall buf0 fs st s,
  for_chunks max dev cs (Player buf0 false None fs) = (st, Done ()) ->
  stream st = Some s ->
  exists fmt off,
    scan_once (buf0 ++ concat cs) = Done (Some (fmt, off)) /\
    final_format fmt = Done (samplerate s, channels s, dtype s) /\
    device s = dev /\ blocksize s = 0 /\ started s = true /\
    stopped s = false /\
    concat (written s) = slice_from (buf0 ++ concat cs) off /\
    Forall (fun w => w <> []) (written s) /\ files st = fs.
Proof.
  induction cs as [|c rest IH]; intros buf0 fs st s Hrun Hstream.
  { simpl in Hrun. injection Hrun as <-. done. }
  simpl in Hrun. destruct (decide (c = [])) as [->|Hne].
  { unfold feed in Hrun. simpl in Hrun. by apply IH. }
  destruct (scan_total (buf0 ++ c)) as (found & fm & o & Hscan).
  pose proof (scan_once_located _ _ _ _ Hscan) as Honce.
  destruct (located fm o) as [[fmt off]|] eqn:Hloc.
  - destruct (located_inv _ _ _ _ Hloc) as [-> ->].
    rewrite (feed_located max dev buf0 fs c fmt off Hne Honce) in Hrun.
    destruct (final_format fmt) as [[[rate ch] dt]| |] eqn:Hfinal;
      [|done..].
    set (s0 := if bool_decide (slice_from (buf0 ++ c) off = [])
               then Sink rate ch dt dev 0 true false []
               else Sink rate ch dt dev 0 true false
                         [slice_from (buf0 ++ c) off]) in *.
    destruct (for_chunks_playing max dev rest (buf0 ++ c) s0 fs)
      as (s' & Hplay & Hw & Hrate & Hch & Hdt & Hdev & Hblock & Hstart & Hstop).
    rewrite Hplay in Hrun. injection Hrun as <-. simpl in Hstream.
    injection Hstream as <-.
    assert (Hs0 : samplerate s0 = rate /\ channels s0 = ch /\ dtype s0 = dt
                  /\ device s0 = dev /\ blocksize s0 = 0 /\ started s0 = true
                  /\ stopped s0 = false
                  /\ concat (written s0) = slice_from (buf0 ++ c) off
                  /\ Forall (fun w => w <> []) (written s0)).
    { unfold s0. case_bool_decide as Hinit; simpl; repeat split; try done.
      - by rewrite app_nil_r.
      - by apply Forall_singleton. }
    destruct Hs0 as (Hr0 & Hc0 & Hd0 & Hv0 & Hb0 & Hst0 & Hsp0 & Hw0 & Hne0).
    exists fmt, off.
    rewrite Hrate, Hch, Hdt, Hdev, Hblock, Hstart, Hstop, Hw,
            Hr0, Hc0, Hd0, Hv0, Hb0, Hst0, Hsp0.
    repeat split; try done.
    + apply scan_extend with (ext := concat rest) in Hscan.
      simpl. rewrite app_assoc. unfold scan_once. rewrite Hscan.
      cbn -[located]. by rewrite Hloc.
    + rewrite concat_app, Hw0, concat_nonempty. simpl.
      apply scan_data_off_bound in Hscan.
      unfold slice_from, len in *.
      rewrite (app_assoc buf0 c).
      by rewrite (drop_app_le (buf0 ++ c) (concat rest)) by lia.
    + apply Forall_app. split; [done|]. apply Forall_forall.
      intros w Hw'. by apply list_elem_of_filter in Hw' as [? _].
  - rewrite (feed_unlocated max dev buf0 fs c Hne Honce) in Hrun.
    case_bool_decide; [done|].
    simpl. rewrite app_assoc. by apply IH.
Qed.

(** X7. When the player's run over a chunk sequence ends without an error
    and with an output stream, the scanner locates a format and a data
    start in the whole byte sequence; the stream was opened with the rate,
    channel count and encoding that lines 152-160 derive from that format
    and with the given device, it was started and, at the end, stopped; and
    the writes to it, none of them empty, are in order exactly the bytes of
    the sequence from the data start on. *)
Theorem playback_delivers_payload (max : Z) (dev : option device_id)
    (cs : list bytes) (st : player) (s : sink) :
  play_chunks max dev cs = (st, Done ()) -> stream st = Some s ->
  exists fmt off,
    scan_once (concat cs) = Done (Some (fmt, off)) /\
    final_format fmt = Done (samplerate s, channels s, dtype s) /\
    device s = dev /\ started s = true /\ stopped s = true /\
    concat (written s) = slice_from (concat cs) off /\
    Forall (fun w => w <> []) (written s).
Proof.
  unfold play_chunks, player_init. intros Hrun Hstream.
  destruct (for_chunks max dev cs (Player [] false None ∅)) as [st0 r] eqn:Hfor.
  injection Hrun as <- ->. simpl in Hstream.
  destruct (stream st0) as [s0|] eqn:Hs0; [|done].
  injection Hstream as <-.
  destruct (for_chunks_delivers _ _ _ _ _ _ _ Hfor Hs0)
    as (fmt & off & Honce & Hfinal & Hdev & _ & Hstart & _ & Hw & Hne & _).
  exists fmt, off. simpl in *. done.
Qed.

Lemma playback_delivers_payload_witness :
  exists fmt off,
    scan_once (concat pcm16_chunks) = Done (Some (fmt, off)) /\
    final_format fmt = Done (44100, 1, "int16") /\
    (None : option device_id) = None /\ true = true /\ true = true /\
    concat [[x01; x02]; [x03; x04]] = slice_from (concat pcm16_chunks) off /\
    Forall (fun w : bytes => w <> []) [[x01; x02]; [x03; x04]].
Proof.
  apply (playback_delivers_payload MAX_HEADER_BYTES None pcm16_chunks
           (Player wav_pcm16 true
              (Some (Sink 44100 1 "int16" None 0 true true
                       [[x01; x02]; [x03; x04]])) ∅)
           (Sink 44100 1 "int16" None 0 true true [[x01; x02]; [x03; x04]])).
  - vm_compute. reflexivity.
  - reflexivity.
Defined.

(** X8. When the player's run ends without an error and without an output
    stream, no format and data start can be located in the bytes received:
    they are all in the buffer, and the scanner finds nothing to play in
    them. *)
Theorem no_header_no_playback (max : Z) (dev : option device_id)
    (cs : list bytes) (st : player) :
  play_chunks max dev cs = (st, Done ()) -> stream st = None ->
  buf st = concat cs /\ data_started st = false /\
  scan_once (concat cs) = Done None.
Proof.
  unfold play_chunks, player_init. intros Hrun Hstream.
  destruct (for_chunks max dev cs (Player [] false None ∅)) as [st0 r] eqn:Hfor.
  injection Hrun as <- ->. simpl in *.
  destruct (stream st0) as [s0|] eqn:Hs0; [done|]. clear Hstream.
  assert (Hempty : scan_once [] = Done None) by done.
  revert Hfor Hs0. change (concat cs) with ([] ++ concat cs).
  generalize (∅ : gmap string bytes) as fs. revert Hempty.
  generalize (@nil byte) as buf0. revert st0.
  induction cs as [|c rest IH]; intros st0 buf0 Hnone fs Hfor Hs0.
  { simpl in Hfor. injection Hfor as <-. simpl. by rewrite app_nil_r. }
  simpl in Hfor. destruct (decide (c = [])) as [->|Hne].
  { unfold feed in Hfor. simpl in *. by eapply IH. }
  destruct (scan_total (buf0 ++ c)) as (found & fm & o & Hscan).
  pose proof (scan_once_located _ _ _ _ Hscan) as Honce.
  destruct (located fm o) as [[fmt off]|] eqn:Hloc.
  - rewrite (feed_located max dev buf0 fs c fmt off Hne Honce) in Hfor.
    destruct (final_format fmt) as [[[rate ch] dt]| |]; [|done..].
    match type of Hfor with
    | for_chunks _ _ _ (Player _ _ (Some ?s) _) = _ =>
      destruct (for_chunks_playing max dev rest (buf0 ++ c) s fs)
        as (s' & Hplay & _)
    end.
    rewrite Hplay in Hfor. injection Hfor as <-. done.
  - rewrite (feed_unlocated max dev buf0 fs c Hne Honce) in Hfor.
    case_bool_decide; [done|].
    simpl. rewrite app_assoc. by eapply IH.
Qed.

Lemma no_header_no_playback_witness :
  take 30 wav_pcm16 = concat [take 30 wav_pcm16] /\ false = false /\
  scan_once (concat [take 30 wav_pcm16]) = Done None.
Proof.
  apply (no_header_no_playback MAX_HEADER_BYTES None [take 30 wav_pcm16]
           (Player (take 30 wav_pcm16) false None ∅)).
  - vm_compute. reflexivity.
  - reflexivity.
Defined.

(** ** How a run can end *)

Lemma for_chunks_exits max dev cs : forall buf0 fs st r,
  for_chunks max dev cs (Player buf0 false None fs) = (st, r) ->
  (r = Done () /\ files st = fs) \/
  (r = Raise (RuntimeError (header_not_found_msg max)) /\
   stream st = None /\ files st = <[HEADER_DUMP := buf st]> fs /\
   len (buf st) > max /\ scan_once (buf st) = Done None) \/
  (exists code bits,
     ((code, bits) ∉ supported) /\
     r = Raise (ValueError (unsupported_msg code bits)) /\
     stream st = None /\ files st = fs).
Proof.
  induction cs as [|c rest IH]; intros buf0 fs st r Hfor.
  { simpl in Hfor. injection Hfor as <- <-. by left. }
  simpl in Hfor. destruct (decide (c = [])) as [->|Hne].
  { unfold feed in Hfor. simpl in Hfor. by eapply IH. }
  destruct (scan_total (buf0 ++ c)) as (found & fm & o & Hscan).
  pose proof (scan_once_located _ _ _ _ Hscan) as Honce.
  destruct (located fm o) as [[fmt off]|] eqn:Hloc.
  - destruct (located_inv _ _ _ _ Hloc) as [-> ->].
    rewrite (feed_located max dev buf0 fs c fmt off Hne Honce) in Hfor.
    apply scan_result_fmt in Hscan as [Hfmt _].
    destruct (final_format_cases fmt Hfmt)
      as [(rate & ch & dt & Hfinal)|(code & bits & Hout & Hfinal)];
      rewrite Hfinal in Hfor.
    + match type of Hfor with
      | for_chunks _ _ _ (Player _ _ (Some ?s) _) = _ =>
        destruct (for_chunks_playing max dev rest (buf0 ++ c) s fs)
          as (s' & Hplay & _)
      end.
      rewrite Hplay in Hfor. injection Hfor as <- <-. by left.
    + injection Hfor as <- <-. right. right. by exists code, bits.
  - rewrite (feed_unlocated max dev buf0 fs c Hne Honce) in Hfor.
    case_bool_decide as Hover.
    + injection Hfor as <- <-. right. left. by simpl.
    + by eapply IH.
Qed.

(** X9. The network iterator, the audio sink and the dump file apart,
    whose own errors are not part of the embedding, a run of the player
    ends in one of three ways only: without an error, and then no file was
    written; with the header-not-found [RuntimeError], whose message is
    "WAV 헤더를 ", the bound in decimal, and "바이트 안에 못 찾음. 덤프
    저장: ./wav_header_dump.bin", and then no output stream was opened, the
    buffer is longer than the bound, holds nothing the scanner can locate,
    and is the one file written, as ./wav_header_dump.bin; or with the
    unsupported-format [ValueError] for a pair outside the supported ones,
    and then no output stream was opened and no file written.  In
    particular the scanner and the look-ups of lines 152-157 raise no
    [struct.error] and no [KeyError]. *)
Theorem play_chunks_exit_paths (max : Z) (dev : option device_id)
    (cs : list bytes) :
  ((play_chunks max dev cs).2 = Done () /\
   files (play_chunks max dev cs).1 = ∅) \/
  ((play_chunks max dev cs).2
     = Raise (RuntimeError
                ("WAV 헤더를 " +:+ pretty max
                 +:+ "바이트 안에 못 찾음. 덤프 저장: ./wav_header_dump.bin")) /\
   stream (play_chunks max dev cs).1 = None /\
   files (play_chunks max dev cs).1
     = {["./wav_header_dump.bin" := buf (play_chunks max dev cs).1]} /\
   len (buf (play_chunks max dev cs).1) > max /\
   scan_once (buf (play_chunks max dev cs).1) = Done None) \/
  (exists code bits,
     ((code, bits) ∉ supported) /\
     (play_chunks max dev cs).2 = Raise (ValueError (unsupported_msg code bits)) /\
     stream (play_chunks max dev cs).1 = None /\
     files (play_chunks max dev cs).1 = ∅).
Proof.
  unfold play_chunks, player_init.
  destruct (for_chunks max dev cs (Player [] false None ∅)) as [st r] eqn:Hfor.
  apply for_chunks_exits in Hfor
    as [[-> Hfiles]|[(-> & Hs & Hfiles & Hlen & Hnone)
                    |(code & bits & Hout & -> & Hs & Hfiles)]]; simpl.
  - by left.
  - right. left. rewrite Hs. done.
  - right. right. exists code, bits. by rewrite Hs.
Qed.

(** ** The moment the data start is known *)

(** A data start that the loop returns lies behind the header at the
    offset it was started from. *)
Lemma scan_loop_data_after n buf i fmt found r :
  0 <= i -> scan_loop n buf i fmt None found = Done r ->
  from_option (fun o => i + 8 <= o) True r.2.
Proof.
  intros Hi.
  apply (scan_loop_inv buf (fun j _ _ => 0 <= i <= j)
           (fun r => from_option (fun o => i + 8 <= o) True r.2));
    simpl; try done; try lia.
  intros j f fd Hj Hlen Hcid Hend.
  pose proof (le_uint_nonneg (slice buf (j + 4) (j + 8))). lia.
Qed.

(** A run that returns a data start has read nothing behind it. *)
Lemma scan_loop_truncate n : forall pre ext i fmt found found' fmt' off,
  0 <= i -> off <= len pre ->
  scan_loop n (pre ++ ext) i fmt None found = Done (found', fmt', Some off) ->
  scan_loop n pre i fmt None found = Done (found', fmt', Some off).
Proof.
  induction n as [|n IH]; intros pre ext i fmt found found' fmt' off Hi Hoff Hrun;
    [discriminate|].
  pose proof (scan_loop_data_after _ _ _ _ _ _ Hi Hrun) as Hafter.
  simpl in Hafter. pose proof (len_nonneg ext) as Hext.
  assert (Hlen : i + 8 <= len pre) by lia.
  assert (Hlen' : i + 8 <= len (pre ++ ext)) by (rewrite len_app; lia).
  pose proof (slice_app_l pre ext i (i + 4) Hi ltac:(lia)) as Hcid.
  pose proof (slice_app_l pre ext (i + 4) (i + 8) ltac:(lia) ltac:(lia))
    as Hsz.
  pose proof (le_uint_nonneg (slice pre (i + 4) (i + 8))) as Hsize.
  destruct (decide (slice pre i (i + 4) = b "data")) as [Hdata|Hdata].
  - rewrite scan_loop_at_data in Hrun by congruence.
    rewrite scan_loop_at_data by done. by rewrite Hsz in Hrun.
  - destruct (decide (i + 8 + le_uint (slice pre (i + 4) (i + 8))
                      <= len (pre ++ ext))) as [Hend|Hend].
    + rewrite (scan_loop_step n (pre ++ ext) i fmt found
                 (slice pre i (i + 4)) (slice pre (i + 4) (i + 8))) in Hrun;
        [|done..|rewrite slice_length; lia|done|done].
      assert (Hi' : 0 <= i + 8 + le_uint (slice pre (i + 4) (i + 8))) by lia.
      pose proof (scan_loop_data_after _ _ _ _ _ _ Hi' Hrun) as Hnext.
      simpl in Hnext.
      rewrite (scan_loop_step n pre i fmt found
                 (slice pre i (i + 4)) (slice pre (i + 4) (i + 8)));
        [|done..|rewrite slice_length; lia|done|lia].
      apply (IH pre ext); [lia|done|].
      case_decide as H16; [|done].
      by rewrite slice_app_l in Hrun by lia.
    + rewrite scan_loop_break in Hrun; [done|done|done|congruence|].
      rewrite Hsz. lia.
Qed.

(** X15. The data start is known from the moment its offset is reached and
    not before: when the scanner returns a data start for a buffer, it
    returns the same entries, format and data start for every prefix of the
    buffer that is at least as long as that offset, and no data start for
    any shorter prefix. *)
Theorem data_start_known_at_offset (pre ext : bytes)
    (found : list chunk_entry) (fmt : option (gmap string Z)) (off : Z) :
  scan_chunks_streaming (pre ++ ext) = Done (found, fmt, Some off) ->
  (off <= len pre ->
   scan_chunks_streaming pre = Done (found, fmt, Some off)) /\
  (len pre < off ->
   exists found' fmt', scan_chunks_streaming pre = Done (found', fmt', None)).
Proof.
  intros Hscan. split.
  - intros Hoff.
    pose proof (scan_data_off_bound _ _ _ _ Hscan) as Hbound.
    pose proof Hscan as Hcases.
    apply scan_cases in Hcases as [[=]|(Hlen & Hriff & Hwave & Hloop)].
    assert (H12 : 0 <= 12) by lia.
    pose proof (scan_loop_data_after _ _ _ _ _ _ H12 Hloop) as Hafter.
    simpl in Hafter.
    apply scan_loop_truncate in Hloop; [|lia|done].
    destruct (scan_total pre) as (f & fm & o & Hpre).
    rewrite Hpre. rewrite scan_with_header in Hpre;
      [|lia|by rewrite <- (slice_app_l pre ext) by lia..].
    f_equal. symmetry. by eapply scan_loop_fuel_agree.
  - intros Hshort.
    destruct (scan_total pre) as (f & fm & [o|] & Hpre); [|eauto].
    pose proof (scan_data_off_bound _ _ _ _ Hpre) as Hbound.
    apply scan_extend with (ext := ext) in Hpre.
    rewrite Hpre in Hscan. injection Hscan as _ _ ->. lia.
Qed.

Lemma data_start_known_at_offset_witness :
  scan_chunks_streaming (take 44 wav_pcm16) =
    Done ([(b "fmt ", 12, 16); (b "data", 36, 4294967295)],
          Some (mk_fmt 1 1 44100 88200 2 16), Some 44).
Proof.
  apply (data_start_known_at_offset (take 44 wav_pcm16) (drop 44 wav_pcm16)).
  - reflexivity.
  - vm_compute. discriminate.
Defined.

(* ===================================================================== *)
(** * Part V. Further properties of the relay                            *)
(* ===================================================================== *)

(** ** The validator of [text] *)

Lemma lstrip_spec s :
  exists l, s = l ++ lstrip s /\ Forall space l /\
            forall c, head (lstrip s) = Some c -> isspace c = false.
Proof.
  induction s as [|c s (l & Hs & Hl & Hhead)]; simpl.
  - exists []. by repeat split.
  - destruct (isspace c) eqn:Hc.
    + exists (c :: l). repeat split; [by rewrite Hs at 1|by constructor|done].
    + exists []. repeat split; [constructor|]. simpl. by intros ? [= <-].
Qed.

Lemma rstrip_cons c s :
  rstrip (c :: s) =
    if bool_decide (rstrip s = []) then (if isspace c then [] else [c])
    else c :: rstrip s.
Proof. simpl. by destruct (rstrip s). Qed.

Lemma rstrip_spec s :
  exists r, s = rstrip s ++ r /\ Forall space r /\
            forall c, last (rstrip s) = Some c -> isspace c = false.
Proof.
  induction s as [|c s (r & Hs & Hr & Hlast)].
  - exists []. by repeat split.
  - rewrite rstrip_cons. case_bool_decide as Hnil.
    + rewrite Hnil in Hs. simpl in Hs. subst r.
      destruct (isspace c) eqn:Hc.
      * exists (c :: s). repeat split; [by constructor|done].
      * exists s. repeat split; [done|]. simpl. by intros ? [= <-].
    + exists r. repeat split; [by rewrite Hs at 1|done|].
      intros x. destruct (rstrip s) as [|y t] eqn:Ht; [done|].
      change (last (c :: y :: t)) with (last (y :: t)). apply Hlast.
Qed.

Lemma rstrip_head s c : head (rstrip s) = Some c -> head s = Some c.
Proof.
  destruct s as [|x s]; [done|]. rewrite rstrip_cons.
  case_bool_decide; [|done]. by destruct (isspace x).
Qed.

Lemma lstrip_fixed s :
  (forall c, head s = Some c -> isspace c = false) -> lstrip s = s.
Proof. destruct s as [|c s]; [done|]. simpl. intros H. by rewrite (H c). Qed.

Lemma rstrip_fixed s :
  (forall c, last s = Some c -> isspace c = false) -> rstrip s = s.
Proof.
  induction s as [|c s IH]; [done|]. intros Hlast. rewrite rstrip_cons.
  destruct s as [|y t].
  - simpl. by rewrite (Hlast c).
  - rewrite IH; [done|]. intros x Hx. by apply Hlast.
Qed.

Lemma strip_spec v :
  exists l r, v = l ++ strip v ++ r /\ Forall space l /\ Forall space r /\
    (forall c, head (strip v) = Some c -> isspace c = false) /\
    (forall c, last (strip v) = Some c -> isspace c = false).
Proof.
  unfold strip.
  destruct (lstrip_spec v) as (l & Hv & Hl & Hhead).
  destruct (rstrip_spec (lstrip v)) as (r & Hs & Hr & Hlast).
  exists l, r. repeat split; try done.
  - by rewrite <- Hs.
  - intros c Hc. by apply Hhead, rstrip_head.
Qed.

Lemma strip_blank v : strip v = [] <-> Forall space v.
Proof.
  split.
  - intros Hnil. destruct (strip_spec v) as (l & r & Hv & Hl & Hr & _).
    rewrite Hnil in Hv. rewrite Hv. by apply Forall_app.
  - intros Hall. unfold strip.
    assert (lstrip v = []) as ->; [|done].
    induction Hall as [|c s Hc _ IH]; [done|]. simpl.
    unfold space in Hc. by rewrite Hc.
Qed.

(** X10. A text that the validator accepts is the given text without its
    leading and trailing whitespace and with everything between unchanged;
    it has between 1 and 300 characters and neither starts nor ends with
    whitespace; and validating it again returns it unchanged. *)
Theorem len_guard_accepts_stripped (v s : pystr) :
  _len_guard v = Done s ->
  (exists l r, v = l ++ s ++ r /\ Forall space l /\ Forall space r) /\
  1 <= len s <= 300 /\
  (forall c, head s = Some c -> isspace c = false) /\
  (forall c, last s = Some c -> isspace c = false) /\
  _len_guard s = Done s.
Proof.
  unfold _len_guard. simpl.
  case_bool_decide as Hnil; [done|]. case_bool_decide as Hlong; [done|].
  intros [= <-].
  destruct (strip_spec v) as (l & r & Hv & Hl & Hr & Hhead & Hlast).
  assert (Hfixed : strip (strip v) = strip v).
  { unfold strip at 1. by rewrite lstrip_fixed, rstrip_fixed. }
  repeat split; try done.
  - by exists l, r.
  - destruct (strip v); [done|]. unfold len. simpl. lia.
  - rewrite Hfixed.
    by rewrite bool_decide_eq_false_2, bool_decide_eq_false_2.
Qed.

Lemma len_guard_accepts_stripped_witness :
  (exists l r, padded_text = l ++ stripped_text ++ r
               /\ Forall space l /\ Forall space r) /\
  1 <= len stripped_text <= 300 /\
  (forall c, head stripped_text = Some c -> isspace c = false) /\
  (forall c, last stripped_text = Some c -> isspace c = false) /\
  _len_guard stripped_text = Done stripped_text.
Proof.
  apply (len_guard_accepts_stripped padded_text stripped_text).
  vm_compute. reflexivity.
Defined.

(** X11. The validator answers "text is required" exactly for the texts
    that consist of whitespace only (the empty text among them), and "text
    must be <= 300 characters" exactly when more than 300 characters are
    left after stripping. *)
Theorem len_guard_rejections (v : pystr) :
  (_len_guard v = Raise (ValueError "text is required") <-> Forall space v) /\
  (_len_guard v = Raise (ValueError "text must be <= 300 characters")
   <-> len (strip v) > 300).
Proof.
  unfold _len_guard. simpl. rewrite <- strip_blank. split; split.
  - case_bool_decide; [done|]. by case_bool_decide.
  - intros ->. done.
  - case_bool_decide; [done|]. by case_bool_decide.
  - intros Hlong. case_bool_decide as Hnil.
    + rewrite Hnil in Hlong. done.
    + by rewrite bool_decide_eq_true_2.
Qed.

(** ** The string fields of the payload *)

Lemma str_or_given x y s : x = Some s -> s <> "" -> str_or x y = s.
Proof. intros -> Hs. unfold str_or. by rewrite bool_decide_eq_false_2. Qed.

Lemma str_or_default x y : x = None \/ x = Some "" -> str_or x y = y.
Proof. by intros [-> | ->]. Qed.

Lemma str_or_empty x y :
  str_or x y = "" <-> (x = None \/ x = Some "") /\ y = "".
Proof.
  unfold str_or. destruct x as [s|].
  - case_bool_decide as Hs.
    + subst s. split; [by intros ->; split; [right|]|by intros [_ ->]].
    + split; [done|]. intros [[|[= <-]] _]; done.
  - split; [by intros ->; split; [left|]|by intros [_ ->]].
Qed.

(** X12. In the payload that [build_payload] returns, the text is the
    request's text; a language or model given in the request and not empty
    is used, and one that is missing or empty is replaced by the default, so
    with defaults that are not empty neither field is ever empty; the
    [style] key is left out exactly when neither the request nor the
    defaults give a style that is not empty, and is never sent empty. *)
Theorem payload_string_fields (D : defaults) (body : TTSRequest) :
  p_text (build_payload D body) = text body /\
  (forall s, language body = Some s -> s <> "" ->
             p_language (build_payload D body) = s) /\
  (language body = None \/ language body = Some "" ->
   p_language (build_payload D body) = d_language D) /\
  (d_language D <> "" -> p_language (build_payload D body) <> "") /\
  (d_model D <> "" -> p_model (build_payload D body) <> "") /\
  (forall s, p_style (build_payload D body) = Some s -> s <> "") /\
  (p_style (build_payload D body) = None <->
   (style body = None \/ style body = Some "") /\ d_style D = "").
Proof.
  simpl.
  split; [done|].
  split; [intros s; apply str_or_given|].
  split; [apply str_or_default|].
  split; [intros Hd Hempty; by apply str_or_empty in Hempty as [_ ?]|].
  split; [intros Hd Hempty; by apply str_or_empty in Hempty as [_ ?]|].
  split; [intros s; case_bool_decide; [done|]; by intros [= <-]|].
  split.
  - case_bool_decide as Hempty; [|done]. intros _. by apply str_or_empty.
  - intros Hempty. apply str_or_empty in Hempty.
    by rewrite bool_decide_eq_true_2.
Qed.

(** ** What the generator forwards *)

(** The loop yields the chunks that are not empty, each as it came. *)
Lemma forward_events chunks : forall sent,
  forward chunks sent =
    (Yield <$> filter (fun c => c <> []) chunks, sent + len (concat chunks)).
Proof.
  induction chunks as [|c cs IH]; intros sent; simpl.
  - unfold len. simpl. by rewrite Z.add_0_r.
  - rewrite filter_cons. case_bool_decide as Hc.
    + subst c. rewrite decide_False by (by intros []). by rewrite IH.
    + rewrite decide_True by done. rewrite IH, len_app. simpl.
      by rewrite Z.add_assoc.
Qed.

Lemma emitted_yields (cs : list bytes) : emitted (Yield <$> cs) = concat cs.
Proof. induction cs as [|c cs IH]; simpl; [done|]. f_equal. exact IH. Qed.

(** X13. When the upstream answers 200, the generator never reads the body
    as a whole: it yields exactly the upstream chunks that are not empty, in
    their order and unchanged, so that the bytes sent downstream are the
    bytes of the upstream body; it returns when the body ends, and an
    exception of a class that lines 103-105 do not name leaves it
    unchanged, after the chunks before it were sent. *)
Theorem relay_forwards_chunks (up : upstream) :
  status_code up = 200 ->
  (gen up).1 = Yield <$> filter (fun c => c <> []) (aiter_bytes up) /\
  emitted (gen up).1 = concat (aiter_bytes up) /\
  (aiter_end up = None -> (gen up).2 = Return) /\
  (forall e, aiter_end up = Some e -> caught e = false ->
             (gen up).2 = Raised (Uncaught e)).
Proof.
  intros Hstatus. unfold gen. rewrite decide_False by (by intros []).
  rewrite forward_events.
  destruct (aiter_end up) as [e|] eqn:Hend.
  - destruct (caught e) eqn:Hcaught.
    + case_decide; simpl; rewrite emitted_yields, concat_nonempty;
        repeat split; try done; intros ? [= <-] ?; congruence.
    + simpl. rewrite emitted_yields, concat_nonempty.
      repeat split; try done. by intros ? [= <-].
  - simpl. rewrite emitted_yields, concat_nonempty. by repeat split.
Qed.

Lemma relay_forwards_chunks_witness :
  (gen broken_midway).1
    = Yield <$> filter (fun c => c <> []) (aiter_bytes broken_midway) /\
  emitted (gen broken_midway).1 = concat (aiter_bytes broken_midway) /\
  (aiter_end broken_midway = None -> (gen broken_midway).2 = Return) /\
  (forall e, aiter_end broken_midway = Some e -> caught e = false ->
             (gen broken_midway).2 = Raised (Uncaught e)).
Proof. apply (relay_forwards_chunks broken_midway). reflexivity. Defined.

(** X14. An [HTTPException] leaves the generator only before any output:
    whenever it raises one (for an upstream status other than 200, or as the
    502 of a broken stream), it has yielded no chunk and sent no byte
    downstream. *)
Theorem http_exception_before_output (up : upstream) (status : Z)
    (d : detail) :
  (gen up).2 = Raised (HTTPException status d) ->
  emitted (gen up).1 = [] /\ forall chunk, Yield chunk ∉ (gen up).1.
Proof.
  unfold gen. case_decide as Hstatus.
  - assert (Hno : forall chunk, Yield chunk ∉ [ARead]).
    { intros chunk Hin. apply list_elem_of_singleton in Hin. done. }
    destruct (aiter_end up); [simpl; by intros _|].
    destruct (str_in _ _); [destruct (content_json up)|]; simpl; by intros _.
  - destruct (forward (aiter_bytes up) 0) as [evs sent] eqn:Hfwd.
    destruct (forward_spec _ _ _ _ Hfwd) as (Hsent & Hbytes & Hnil).
    destruct (aiter_end up) as [e|]; [|done].
    destruct (caught e); [|done].
    case_decide as Hzero; [|done]. simpl. intros _.
    assert (emitted evs = []) as Hnone.
    { pose proof (len_nonneg (emitted evs)).
      apply length_zero_iff_nil. unfold len in *. lia. }
    split; [done|]. rewrite (Hnil Hnone). intros chunk. apply not_elem_of_nil.
Qed.

Lemma http_exception_before_output_witness :
  emitted (gen broken_at_start).1 = [] /\
  forall chunk, Yield chunk ∉ (gen broken_at_start).1.
Proof.
  apply (http_exception_before_output broken_at_start 502
           (DetailText "Upstream stream error: ReadError")).
  reflexivity.
Defined.
